(** * AutoModder: the rule-based triage engine

    A shallow embedding of the check / qualifier model ([checks.py]), the
    item-queue scanner ([managers/modqueue.py]), the conversation scanner
    ([managers/modmail.py]) and the moderator-activity ladder classifier
    ([managers/inactivity.py], [models/subreddit_bucket.py]), followed by
    the properties of the written specification stated over them.

    Conventions of the embedding:
    - an object's mutable attributes are fields of a record that every
      method takes and returns;
    - the [logging] calls a method makes are appended to a [logged] field
      (method, message, and the item handed to the [PrefixLogger]);
    - a lazily produced remote listing is the list of the elements it
      yields, followed by the exception it raises, if any;
    - the remote platform (moderation actions, moderator rosters) is an
      oracle passed to the method that talks to it;
    - a check is a total function: for every item it returns a verdict
      and a message (an item without the attributes a check reads is
      outside the engine's contract). *)

From Stdlib Require Import Ascii.
From stdpp Require Import base strings list gmap pretty.

Set Default Proof Using "Type".
Open Scope string_scope.
Open Scope list_scope.

(* ===================================================================== *)
(** ** Shared vocabulary                                                  *)
(* ===================================================================== *)

(** The two exception classes the scanners tell apart:
    [prawcore.Forbidden] and every other [Exception]. *)
Inductive Raised := Forbidden | OtherException.

(** What a call does: it returns a value or it raises. *)
Inductive Outcome (A : Type) :=
  | Return (a : A)
  | Raise (e : Raised).
Arguments Return {A} a.
Arguments Raise {A} e.

(** A [ListingGenerator]: the elements it yields, in order, and the
    exception that ends the iteration early, if one does. *)
Record Listing (A : Type) := mkListing {
  yielded : list A;
  raises : option Raised
}.
Arguments mkListing {A} yielded raises.
Arguments yielded {A} l.
Arguments raises {A} l.

(** The methods of [logging.Logger] the engine calls. *)
Inductive LogMethod := info | warning | error | exception.

#[global] Instance LogMethod_eq_dec : EqDecision LogMethod.
Proof. solve_decision. Defined.

(** One logging call.  [about] is the item given to a [PrefixLogger]
    ([None] for a call on the module logger); the prefix itself is
    rendered from the wall clock and is not part of the record. *)
Record LogRecord (T : Type) := mkLog {
  method : LogMethod;
  msg : string;
  about : option T
}.
Arguments mkLog {T} method msg about.
Arguments method {T} l.
Arguments msg {T} l.
Arguments about {T} l.

(** The number of records of a log made with the method [m] and the
    message [message]. *)
Definition logged_count {T : Type} (m : LogMethod) (message : string)
    (records : list (LogRecord T)) : nat :=
  length (List.filter
            (λ r, bool_decide (method r = m) && String.eqb (msg r) message) records).

(** Python truthiness of an attribute that is [None] or a [str]. *)
Definition truthy (o : option string) : bool :=
  match o with
  | Some s => negb (String.eqb s "")
  | None => false
  end.

(** [str.partition("|")]: the text before the first bar and the text
    after it (both empty parts when there is no bar). *)
Fixpoint partition_bar (s : string) : string * string :=
  match s with
  | EmptyString => ("", "")
  | String c rest =>
      if Ascii.eqb c "|"%char then ("", rest)
      else let '(before, after) := partition_bar rest in (String c before, after)
  end.


(** [utils.plural]: [format(plural(v), format_spec)] for a length [v]. *)
Definition plural (v : nat) (format_spec : string) : string :=
  let '(singular_form, plural_form) := partition_bar format_spec in
  let plural_form :=
    if String.eqb plural_form "" then singular_form +:+ "s" else plural_form in
  if negb (Nat.eqb v 1) then pretty v +:+ " " +:+ plural_form
  else pretty v +:+ " " +:+ singular_form.

(* ===================================================================== *)
(** ** checks.py                                                          *)
(* ===================================================================== *)

Inductive ActionQualifier := ANY | ALL.

#[global] Instance ActionQualifier_eq_dec : EqDecision ActionQualifier.
Proof. solve_decision. Defined.

(** [class Check]: the wrapped function and its qualifier. *)
Record Check (T : Type) := mkCheck {
  func : T → bool * string;
  qualifier : ActionQualifier
}.
Arguments mkCheck {T} func qualifier.
Arguments func {T} c.
Arguments qualifier {T} c.

(** [Check.__call__]. *)
Definition call {T : Type} (check : Check T) (item : T) : bool * string :=
  func check item.

(** [item.banned_by]: absent, the literal [True], or a moderator's name. *)
Inductive BannedBy := NotBanned | BannedTrue | BannedByMod (name : string).

#[global] Instance BannedBy_eq_dec : EqDecision BannedBy.
Proof. solve_decision. Defined.

(** A [Comment] or [Submission], reduced to the attributes the engine reads. *)
Record Item := mkItem {
  item_id : string;
  created_utc : Z;
  score : Z;
  approved_by : option string;
  removed_by_category : option string;
  banned_by : BannedBy;
  ban_note : option string
}.

(** A [ModmailConversation], reduced to the attributes the engine reads.
    Two conversations are the same element of a Python [set] when their
    [conv_id] agree (PRAW compares and hashes a conversation by its id). *)
Record Conversation := mkConversation {
  conv_id : string;
  owner_display_name : string;
  last_mod_update : option string;
  last_user_update : option string;
  is_internal : bool
}.

Section Checks.
(** The wall clock in epoch seconds, [click.style(text, fg=...)] and
    [utils.human_timedelta(epoch, suffix=...)], which renders a span
    relative to the wall clock. *)
Variable now : Z.
Variable style : string → string → string.
Variable human_timedelta : Z → bool → string.

Definition check_age (min_age : Z) : Check Item :=
  mkCheck (λ item,
    let result := (min_age <=? now - created_utc item)%Z in
    let message :=
      if result then
        style (human_timedelta (created_utc item) false) "red" +:+ " " +:+
        style ">=" "yellow" +:+ " " +:+
        style (human_timedelta (now - min_age) false) "cyan"
      else "" in
    (result, message)) ALL.

Definition check_removed_by_automated_spam : Check Item :=
  mkCheck (λ item,
    let results := [bool_decide (removed_by_category item = Some "reddit")] in
    let results :=
      match banned_by item with
      | BannedTrue => results ++ [bool_decide (ban_note item = Some "spam")]
      | _ => results
      end in
    let result := existsb (λ r, r) results in
    let message :=
      if result then style "automated system marked it as spam" "red" else "" in
    (result, message)) ANY.

Definition check_score (min_score : Z) : Check Item :=
  mkCheck (λ item,
    let result := (score item <? min_score)%Z in
    let message :=
      if result then
        style (pretty (score item)) "red" +:+ " " +:+
        style "<" "yellow" +:+ " " +:+
        style (pretty min_score) "cyan"
      else "" in
    (result, message)) ALL.

Definition check_unanswered (ignore_unanswered : bool) : Check Conversation :=
  mkCheck (λ item,
    let message := "" in
    if ignore_unanswered then (false, message)
    else
      let result := bool_decide (last_mod_update item = None) in
      let message := if result then style "unanswered" "red" else message in
      (result, message)) ALL.
End Checks.

(** [click.style(text, fg=colour)] as the terminal receives it: the SGR
    code of the colour, the text, and the reset code. *)
Definition ansi_style (text colour : string) : string :=
  let esc := String (Ascii.ascii_of_nat 27) "[" in
  let code :=
    if String.eqb colour "red" then "31"
    else if String.eqb colour "yellow" then "33"
    else if String.eqb colour "cyan" then "36"
    else "39" in
  esc +:+ code +:+ "m" +:+ text +:+ esc +:+ "0m".

(** What [check_removed_by_automated_spam] looks for. *)
Definition spam_flagged (item : Item) : bool :=
  bool_decide (removed_by_category item = Some "reddit")
  || (bool_decide (banned_by item = BannedTrue) && bool_decide (ban_note item = Some "spam")).

Section PendingResponse.
(** [click.style] and [datetime.fromisoformat] on the timestamps the
    platform sends (well-formed and timezone-aware, so that parsing and
    comparing them succeed): the instant, as a number. *)
Variable style : string → string → string.
Variable fromisoformat : string → Z.

(** The function [check_pending_response(ignore_pending_response)]
    wraps in a [Check] with the default qualifier [ALL].  It is not
    total: [datetime.fromisoformat(None)] raises [TypeError], so the
    result is an [Outcome]. *)
Definition check_pending_response (ignore_pending_response : bool)
    (item : Conversation) : Outcome (bool * string) :=
  let message := "" in
  if ignore_pending_response || bool_decide (last_user_update item = None)
  then Return (false, message)
  else
    match last_mod_update item with
    | None => Raise OtherException
    | Some mod_update =>
        match last_user_update item with
        | None => Raise OtherException
        | Some user_update =>
            let result := (fromisoformat mod_update <? fromisoformat user_update)%Z in
            let message :=
              if result then style "needs mod response" "red" else message in
            Return (result, message)
        end
    end.
End PendingResponse.

(* ===================================================================== *)
(** ** managers/modqueue.py                                               *)
(* ===================================================================== *)

Module Modqueue.

(** A call of [item.mod.remove()], [item.mod.lock()] or
    [item.mod.approve()] sent to the platform. *)
Inductive Action := Remove (item : Item) | Lock (item : Item) | Approve (item : Item).

(** The platform's answer to each moderation call: the exception it
    raises, if any. *)
Record Remote := mkRemote {
  remove_raises : Item → option Raised;
  lock_raises : Item → option Raised;
  approve_raises : Item → option Raised
}.

(** [class Modqueue].  The first six fields are the attributes set by
    [__init__]; [logged] is the output of the module logger, [issued]
    the moderation calls sent so far, and [invoked] an instrumentation
    of [check(item)]: the position of the check in [checks] and the
    item, one entry per call. *)
Record t := mk {
  checks : list (Check Item);
  items_to_reapprove : list Item;
  items_to_remove : list Item;
  listing : Listing Item;
  reapprove : bool;
  subreddit : string;
  logged : list (LogRecord Item);
  issued : list Action;
  invoked : list (nat * Item)
}.

(** [Modqueue.__init__]. *)
Definition init (subreddit : string) (listing : Listing Item)
    (checks : list (Check Item)) (reapprove_previously_approved : bool) : t :=
  {| checks := checks;
     items_to_reapprove := [];
     items_to_remove := [];
     listing := listing;
     reapprove := reapprove_previously_approved;
     subreddit := subreddit;
     logged := [];
     issued := [];
     invoked := [] |}.

Definition log (m : LogMethod) (message : string) (item : option Item) (self : t) : t :=
  {| checks := checks self;
     items_to_reapprove := items_to_reapprove self;
     items_to_remove := items_to_remove self;
     listing := listing self;
     reapprove := reapprove self;
     subreddit := subreddit self;
     logged := logged self ++ [mkLog m message item];
     issued := issued self;
     invoked := invoked self |}.

Definition append_reapprove (item : Item) (self : t) : t :=
  {| checks := checks self;
     items_to_reapprove := items_to_reapprove self ++ [item];
     items_to_remove := items_to_remove self;
     listing := listing self;
     reapprove := reapprove self;
     subreddit := subreddit self;
     logged := logged self;
     issued := issued self;
     invoked := invoked self |}.

Definition append_remove (item : Item) (self : t) : t :=
  {| checks := checks self;
     items_to_reapprove := items_to_reapprove self;
     items_to_remove := items_to_remove self ++ [item];
     listing := listing self;
     reapprove := reapprove self;
     subreddit := subreddit self;
     logged := logged self;
     issued := issued self;
     invoked := invoked self |}.

Definition issue (a : Action) (self : t) : t :=
  {| checks := checks self;
     items_to_reapprove := items_to_reapprove self;
     items_to_remove := items_to_remove self;
     listing := listing self;
     reapprove := reapprove self;
     subreddit := subreddit self;
     logged := logged self;
     issued := issued self ++ [a];
     invoked := invoked self |}.

Definition record_call (i : nat) (item : Item) (self : t) : t :=
  {| checks := checks self;
     items_to_reapprove := items_to_reapprove self;
     items_to_remove := items_to_remove self;
     listing := listing self;
     reapprove := reapprove self;
     subreddit := subreddit self;
     logged := logged self;
     issued := issued self;
     invoked := invoked self ++ [(i, item)] |}.

(** [reapprove_found]: an exception of [approve()] is not caught. *)
Fixpoint reapprove_loop (remote : Remote) (items : list Item) (self : t)
    : Outcome unit * t :=
  match items with
  | [] => (Return (), self)
  | item :: rest =>
      let self := issue (Approve item) self in
      match approve_raises remote item with
      | Some e => (Raise e, self)
      | None => reapprove_loop remote rest (log info "Re-approved" (Some item) self)
      end
  end.

Definition reapprove_found (remote : Remote) (self : t) : Outcome unit * t :=
  reapprove_loop remote (items_to_reapprove self) self.

(** [remove_found]: an exception of [remove()] is not caught, one of
    [lock()] is logged and the loop goes on with the next item. *)
Fixpoint remove_loop (remote : Remote) (items : list Item) (self : t)
    : Outcome unit * t :=
  match items with
  | [] => (Return (), self)
  | item :: rest =>
      let self := issue (Remove item) self in
      match remove_raises remote item with
      | Some e => (Raise e, self)
      | None =>
          let self := log info "Removed" (Some item) self in
          let self := issue (Lock item) self in
          match lock_raises remote item with
          | Some _ =>
              let self := log exception "Failed to lock" None self in
              let self := log error "Failed to lock" (Some item) self in
              remove_loop remote rest self
          | None => remove_loop remote rest (log info "Locked" (Some item) self)
          end
      end
  end.

Definition remove_found (remote : Remote) (self : t) : Outcome unit * t :=
  remove_loop remote (items_to_remove self) self.

(** The [for check in self.checks] loop of [scan], from the check at
    position [i] on, with the loop's local variables [remove] and
    [messages].  The result is the state and the locals when the loop
    is left, by exhaustion or by [break]. *)
Fixpoint for_checks (item : Item) (i : nat) (rest : list (Check Item))
    (self : t) (remove : bool) (messages : list string)
    : t * bool * list string :=
  match rest with
  | [] => (self, remove, messages)
  | check :: rest =>
      if reapprove self && truthy (approved_by item) then
        let self :=
          log info ("Previously approved by u/" +:+ default "None" (approved_by item))
            (Some item) self in
        let self := append_reapprove item self in
        (self, false, messages)
      else
        let '(result, message) := call check item in
        let self := record_call i item self in
        let messages := if result then messages ++ [message] else messages in
        let remove :=
          if decide (qualifier check = ALL) then remove && result else remove in
        if result && bool_decide (qualifier check = ANY) then (self, result, messages)
        else for_checks item (S i) rest self remove messages
  end.

(** The body of [for item in self.listing]. *)
Definition scan_item (self : t) (item : Item) : t :=
  let '(self, remove, messages) := for_checks item 0 (checks self) self true [] in
  if remove then
    append_remove item (log info (String.concat " | " messages) (Some item) self)
  else self.

(** The test [self.reapprove and item.approved_by] of the loop. *)
Definition previously_approved (self : t) (item : Item) : bool :=
  reapprove self && truthy (approved_by item).

(** The value of [remove] that [if remove:] tests for an item. *)
Definition verdict (self : t) (item : Item) : bool :=
  (for_checks item 0 (checks self) self true []).1.2.

(** The value of [messages] when the check loop is left. *)
Definition reasons (self : t) (item : Item) : list string :=
  (for_checks item 0 (checks self) self true []).2.

(** The reasons of the checks of [cs] that match [item], in order. *)
Definition matched_reasons (item : Item) (cs : list (Check Item)) : list string :=
  omap (λ c, if (call c item).1 then Some (call c item).2 else None) cs.

(** The conjunction of the verdicts of the [ALL] checks of [cs]. *)
Definition all_verdicts (item : Item) (cs : list (Check Item)) : bool :=
  forallb (λ c, if decide (qualifier c = ALL) then (call c item).1 else true) cs.

(** An [ANY] check that matches the item. *)
Definition any_hit (item : Item) (c : Check Item) : bool :=
  (call c item).1 && bool_decide (qualifier c = ANY).

(** The instrumentation entries of calling the checks at positions
    [i], [i + 1], ..., [i + n - 1] on [item]. *)
Definition calls_from (i n : nat) (item : Item) : list (nat * Item) :=
  (λ k, (k, item)) <$> seq i n.

(** Whether [scan] puts the item in the reapprove bucket: the test of
    the loop holds and the loop body is entered. *)
Definition reapproved (self : t) (item : Item) : bool :=
  previously_approved self item && negb (bool_decide (checks self = [])).

(** [scan]: the counts it returns and the scanner afterwards. *)
Definition scan (self : t) : (nat * nat) * t :=
  let source := listing self in
  let self := foldl scan_item self (yielded source) in
  match raises source with
  | None =>
      let self :=
        log info ("r/" +:+ subreddit self +:+ " | Found " +:+
                  plural (length (items_to_remove self)) "item" +:+ " to remove")
          None self in
      let self :=
        log info ("r/" +:+ subreddit self +:+ " | Found " +:+
                  plural (length (items_to_reapprove self)) "item" +:+ " to re-approve")
          None self in
      ((length (items_to_remove self), length (items_to_reapprove self)), self)
  | Some Forbidden =>
      ((0, 0), log error ("r/" +:+ subreddit self +:+ " | Forbidden to scan modqueue") None self)
  | Some OtherException =>
      ((0, 0), log exception ("r/" +:+ subreddit self +:+ " | Error scanning modqueue") None self)
  end.

End Modqueue.

(* ===================================================================== *)
(** ** managers/modmail.py                                                *)
(* ===================================================================== *)

Module Modmail.

(** [class Modmail].  [items_to_archive] is a Python [set] of
    conversations: a finite map from the id a conversation is hashed
    and compared by to the element kept for it.  [logged] is the
    output of the module logger. *)
Record t := mk {
  checks : list (Check Conversation);
  items_to_archive : gmap string Conversation;
  listing : string → Listing Conversation;
  states : list string;
  logged : list (LogRecord Conversation)
}.

(** [Modmail.__init__]. *)
Definition init (listing : string → Listing Conversation)
    (checks : list (Check Conversation)) (states : list string) : t :=
  {| checks := checks;
     items_to_archive := ∅;
     listing := listing;
     states := states;
     logged := [] |}.

Definition log (m : LogMethod) (message : string) (item : option Conversation)
    (self : t) : t :=
  {| checks := checks self;
     items_to_archive := items_to_archive self;
     listing := listing self;
     states := states self;
     logged := logged self ++ [mkLog m message item] |}.

(** [set.add]: an element equal to one already present is not added. *)
Definition set_add (c : Conversation) (s : gmap string Conversation)
    : gmap string Conversation :=
  match s !! conv_id c with
  | Some _ => s
  | None => <[conv_id c := c]> s
  end.

Definition archive_add (c : Conversation) (self : t) : t :=
  {| checks := checks self;
     items_to_archive := set_add c (items_to_archive self);
     listing := listing self;
     states := states self;
     logged := logged self |}.

(** [aggregated]: a [defaultdict] of [defaultdict(int)], as association
    lists in insertion order. *)
Definition Counts := list (string * nat).
Definition Aggregated := list (string * Counts).

Fixpoint bump_count (state : string) (counts : Counts) : Counts :=
  match counts with
  | [] => [(state, 1)]
  | (k, n) :: rest =>
      if String.eqb k state then (k, n + 1) :: rest
      else (k, n) :: bump_count state rest
  end.

(** [aggregated[subreddit][state] += 1]. *)
Fixpoint bump (subreddit state : string) (aggregated : Aggregated) : Aggregated :=
  match aggregated with
  | [] => [(subreddit, bump_count state [])]
  | (k, counts) :: rest =>
      if String.eqb k subreddit then (k, bump_count state counts) :: rest
      else (k, counts) :: bump subreddit state rest
  end.

(** The [for check in self.checks] loop with its [else] clause: the
    conversation is added to the set when the loop ends without
    [break]. *)
Fixpoint for_checks (conversation : Conversation)
    (rest : list (Check Conversation)) (self : t) : t :=
  match rest with
  | [] => archive_add conversation self
  | check :: rest =>
      let '(result, message) := call check conversation in
      if result then log info message (Some conversation) self
      else for_checks conversation rest self
  end.

(** The body of [for conversation in self.listing(state=state)]. *)
Definition scan_conversation (state : string) (acc : t * Aggregated)
    (conversation : Conversation) : t * Aggregated :=
  let '(self, aggregated) := acc in
  let self := for_checks conversation (checks self) self in
  (self, bump (owner_display_name conversation) state aggregated).

(** The [for state in self.states] loop.  Nothing catches an exception
    of the listing: it ends the loop and the method. *)
Fixpoint for_states (rest : list string) (acc : t * Aggregated)
    : Outcome unit * (t * Aggregated) :=
  match rest with
  | [] => (Return (), acc)
  | state :: rest =>
      let source := listing (fst acc) state in
      let acc := foldl (scan_conversation state) acc (yielded source) in
      match raises source with
      | Some e => (Raise e, acc)
      | None => for_states rest acc
      end
  end.

Definition log_counts (self : t) (entry : string * nat) : t :=
  log info ("    " +:+ fst entry +:+ ": " +:+ pretty (snd entry)) None self.

Definition log_subreddit (self : t) (entry : string * Counts) : t :=
  foldl log_counts (log info ("r/" +:+ fst entry +:+ ":") None self) (snd entry).

(** The conversations the [for state] loop pulls, in order: those of
    each state's listing, up to the first listing that raises. *)
Fixpoint pulled (listing : string → Listing Conversation) (rest : list string)
    : list Conversation :=
  match rest with
  | [] => []
  | state :: rest =>
      yielded (listing state) ++
      match raises (listing state) with
      | Some _ => []
      | None => pulled listing rest
      end
  end.

(** Whether some check of the rule set matches the conversation. *)
Definition matched (checks : list (Check Conversation)) (c : Conversation) : bool :=
  existsb (λ check, (call check c).1) checks.

(** The elements of the archive set. *)
Definition elements (self : t) : list Conversation :=
  (map_to_list (items_to_archive self)).*2.

(** The archive set after the body of the conversation loop has run
    over [convs], from the set [s]. *)
Definition archive_of (cs : list (Check Conversation)) (convs : list Conversation)
    (s : gmap string Conversation) : gmap string Conversation :=
  foldl (λ s c, if matched cs c then s else set_add c s) s convs.

(** Every element of the set is stored under its own id, was among
    [convs], and was matched by no check. *)
Definition well_keyed (cs : list (Check Conversation)) (convs : list Conversation)
    (s : gmap string Conversation) : Prop :=
  ∀ k v, s !! k = Some v → conv_id v = k ∧ v ∈ convs ∧ matched cs v = false.

(** [scan]: the count it returns, or the exception it lets through,
    and the scanner afterwards. *)
Definition scan (self : t) : Outcome nat * t :=
  match for_states (states self) (self, []) with
  | (Raise e, (self, _)) => (Raise e, self)
  | (Return _, (self, aggregated)) =>
      let self :=
        log info ("Found " +:+ plural (size (items_to_archive self)) "conversation"
                  +:+ " to archive") None self in
      let self := foldl log_subreddit self aggregated in
      (Return (size (items_to_archive self)), self)
  end.

(** The body of [for item in self.items_to_archive] of [archive_found],
    over the elements in the order the set yields them.  [archive_raises]
    is the platform: the text of the exception [item.archive()] raises,
    if it raises.  [sent] collects the conversations [archive()] was
    called on. *)
Fixpoint archive_loop (archive_raises : Conversation → option string)
    (items : list Conversation) (sent : list Conversation) (self : t)
    : list Conversation * t :=
  match items with
  | [] => (sent, self)
  | item :: rest =>
      let self := log info "Archiving" (Some item) self in
      if is_internal item then
        archive_loop archive_raises rest sent
          (log info "Skipping internal conversation" (Some item) self)
      else
        let sent := sent ++ [item] in
        let self :=
          match archive_raises item with
          | Some e => log exception ("Error archiving: " +:+ e) (Some item) self
          | None => self
          end in
        archive_loop archive_raises rest sent (log info "Archived" (Some item) self)
  end.

(** [archive_found]: the [archive()] calls it sends and the scanner
    afterwards. *)
Definition archive_found (archive_raises : Conversation → option string) (self : t)
    : list Conversation * t :=
  archive_loop archive_raises (elements self) [] self.

(** [counts[state]] and [aggregated[subreddit][state]], [0] when a key
    is missing. *)
Definition count_in (state : string) (counts : Counts) : nat :=
  match List.find (λ e, String.eqb e.1 state) counts with
  | Some (_, n) => n
  | None => 0
  end.

Definition count_of (subreddit state : string) (aggregated : Aggregated) : nat :=
  match List.find (λ e, String.eqb e.1 subreddit) aggregated with
  | Some (_, counts) => count_in state counts
  | None => 0
  end.

(** The conversations the [for state] loop pulls, each with the state
    it was pulled under. *)
Fixpoint pulled_under (listing : string → Listing Conversation) (rest : list string)
    : list (string * Conversation) :=
  match rest with
  | [] => []
  | state :: rest =>
      ((λ c, (state, c)) <$> yielded (listing state)) ++
      match raises (listing state) with
      | Some _ => []
      | None => pulled_under listing rest
      end
  end.

(** Whether a pulled conversation counts for [subreddit] and [state]. *)
Definition counts_for (subreddit state : string) (p : string * Conversation) : bool :=
  String.eqb (owner_display_name p.2) subreddit && String.eqb p.1 state.

(** The sum of all the counts of [aggregated]. *)
Definition total (aggregated : Aggregated) : nat :=
  sum_list ((λ e, sum_list e.2.*2) <$> aggregated).

(** The function of a check that may raise on a conversation (the
    [Check] record above holds the functions that cannot). *)
Definition PartialCheck : Type := Conversation → Outcome (bool * string).

(** A [Check] seen as a function that may raise, and never does. *)
Definition returning (check : Check Conversation) : PartialCheck :=
  λ conversation, Return (call check conversation).

(** The [for check in self.checks] loop of [scan] with its [else]
    clause, over check functions that may raise: an exception of a
    check leaves the loop and is not caught. *)
Fixpoint for_partial_checks (conversation : Conversation)
    (rest : list PartialCheck) (self : t) : Outcome unit * t :=
  match rest with
  | [] => (Return (), archive_add conversation self)
  | check :: rest =>
      match check conversation with
      | Raise e => (Raise e, self)
      | Return (result, message) =>
          if result then (Return (), log info message (Some conversation) self)
          else for_partial_checks conversation rest self
      end
  end.

(** The [for conversation in self.listing(state=state)] loop over the
    conversations a listing yields. *)
Fixpoint for_conversations (checks : list PartialCheck) (state : string)
    (rest : list Conversation) (acc : t * Aggregated) : Outcome unit * (t * Aggregated) :=
  match rest with
  | [] => (Return (), acc)
  | conversation :: rest =>
      match for_partial_checks conversation checks acc.1 with
      | (Raise e, self) => (Raise e, (self, acc.2))
      | (Return _, self) =>
          for_conversations checks state rest
            (self, bump (owner_display_name conversation) state acc.2)
      end
  end.

(** The [for state in self.states] loop. *)
Fixpoint for_partial_states (checks : list PartialCheck) (rest : list string)
    (acc : t * Aggregated) : Outcome unit * (t * Aggregated) :=
  match rest with
  | [] => (Return (), acc)
  | state :: rest =>
      let source := listing acc.1 state in
      match for_conversations checks state (yielded source) acc with
      | (Raise e, acc) => (Raise e, acc)
      | (Return _, acc) =>
          match raises source with
          | Some e => (Raise e, acc)
          | None => for_partial_states checks rest acc
          end
      end
  end.

(** [scan] for a scanner whose rule set is [checks], functions that may
    raise. *)
Definition partial_scan (checks : list PartialCheck) (self : t) : Outcome nat * t :=
  match for_partial_states checks (states self) (self, []) with
  | (Raise e, (self, _)) => (Raise e, self)
  | (Return _, (self, aggregated)) =>
      let self :=
        log info ("Found " +:+ plural (size (items_to_archive self)) "conversation"
                  +:+ " to archive") None self in
      let self := foldl log_subreddit self aggregated in
      (Return (size (items_to_archive self)), self)
  end.

End Modmail.

(* ===================================================================== *)
(** ** models/subreddit_bucket.py                                         *)
(* ===================================================================== *)

(** A moderator yielded by the roster listing; [position] is the
    attribute [scan] sets on it. *)
Record Redditor := mkRedditor {
  name : string;
  is_active : bool;
  position : option nat
}.

Module SubredditBucket.

(** [class SubredditBucket].  A subreddit is held by reference: its
    index in the classifier's cached list of subreddit objects. *)
Record t := mk {
  name : string;
  bucket : list (nat * list Redditor)
}.

(** [SubredditBucket.__init__]. *)
Definition init (pretty_name : string) : t :=
  {| name := pretty_name; bucket := [] |}.

(** [SubredditBucket.__call__]. *)
Definition add (sub : nat) (mods : list Redditor) (self : t) : t :=
  {| name := name self; bucket := bucket self ++ [(sub, mods)] |}.

(** [SubredditBucket.__len__]. *)
Definition len (self : t) : nat := length (bucket self).

End SubredditBucket.

(* ===================================================================== *)
(** ** managers/inactivity.py                                             *)
(* ===================================================================== *)

Module InactivityManager.

(** The class attributes of [InactivityManager] that hold a bucket. *)
Inductive Attr :=
  | all_subreddits | inactive | active_top_mod | top_active_mod
  | no_active_mods | inactive_top_mod | inactive_top_2 | inactive_top_3
  | inactive_top_5 | inactive_top_10 | active_inactive_above
  | inactive_active_below | only_one_active.

#[global] Instance Attr_eq_dec : EqDecision Attr.
Proof. solve_decision. Defined.

(** The state of the class: the bucket bound to each attribute.  It is
    shared by every instance and lives as long as the process. *)
Definition Buckets := Attr → SubredditBucket.t.

(** The class body: every attribute is bound to a fresh, empty bucket. *)
Definition class_body : Buckets := λ a,
  SubredditBucket.init
    match a with
    | all_subreddits => "All Subreddits"
    | inactive => "Inactive"
    | active_top_mod => "Top Mod and Active"
    | top_active_mod => "Highest Active Mod"
    | no_active_mods => "Subreddits Where Nobody Is Active"
    | inactive_top_mod => "Inactive and Top Mod"
    | inactive_top_2 => "Inactive and In The Top 2"
    | inactive_top_3 => "Inactive and In The Top 3"
    | inactive_top_5 => "Inactive and In The Top 5"
    | inactive_top_10 => "Inactive and In The Top 10"
    | active_inactive_above => "Active with Inactive Above"
    | inactive_active_below => "Inactive with Active Below"
    | only_one_active => "Only One Active"
    end.

(** The class attribute [lists]. *)
Definition lists : list Attr :=
  [ all_subreddits; inactive; active_top_mod; only_one_active; no_active_mods;
    inactive_top_mod; inactive_top_2; inactive_top_3; inactive_top_5;
    inactive_top_10; active_inactive_above; inactive_active_below ].

(** [self.<attr>(subreddit, mods)]: the call appends to the bucket
    bound to the attribute. *)
Definition fire (a : Attr) (sub : nat) (mods : list Redditor) (buckets : Buckets)
    : Buckets :=
  λ a', if decide (a' = a) then SubredditBucket.add sub mods (buckets a')
        else buckets a'.

(** A [Subreddit] object: its name and the two attributes [scan] sets. *)
Record Subreddit := mkSubreddit {
  display_name : string;
  sub_position : option nat;
  sub_is_active : option bool
}.

(** An instance: [me] is [self.me.name], [subreddits] the cached list
    of subreddit objects, [logged] the output of the module logger. *)
Record t := mk {
  me : string;
  subreddits : list Subreddit;
  logged : list (LogRecord Redditor)
}.

Definition init (subreddits : list Subreddit) (redditor : string) : t :=
  {| me := redditor; subreddits := subreddits; logged := [] |}.

Definition log (m : LogMethod) (message : string) (item : option Redditor)
    (self : t) : t :=
  {| me := me self;
     subreddits := subreddits self;
     logged := logged self ++ [mkLog m message item] |}.

(** [subreddit.position = p; subreddit.is_active = a] on the object at
    index [i]. *)
Definition set_status (i : nat) (p : nat) (a : bool) (self : t) : t :=
  {| me := me self;
     subreddits :=
       alter (λ s, {| display_name := display_name s;
                      sub_position := Some p;
                      sub_is_active := Some a |}) i (subreddits self);
     logged := logged self |}.

Definition contain_active (moderators : list Redditor) : bool :=
  existsb is_active moderators.

Definition contain_all_inactive (moderators : list Redditor) : bool :=
  forallb (λ moderator, negb (is_active moderator)) moderators.

Definition contain_inactive (moderators : list Redditor) : bool :=
  existsb (λ moderator, negb (is_active moderator)) moderators.

(** The local variables of one iteration of [for subreddit in ...]. *)
Record Locals := mkLocals {
  entire_sub_inactive : bool;
  above_me : list Redditor;
  below_me : list Redditor;
  my_position : option nat;
  im_active : bool
}.

Definition fresh_locals : Locals :=
  {| entire_sub_inactive := true;
     above_me := [];
     below_me := [];
     my_position := None;
     im_active := false |}.

(** The [for position, moderator in enumerate(generator, 1)] loop over
    the moderators the roster yields, for the subreddit at index [i]. *)
Fixpoint for_moderators (i : nat) (pos : nat) (rest : list Redditor)
    (self : t) (l : Locals) : t * Locals :=
  match rest with
  | [] => (self, l)
  | moderator :: rest =>
      let entire_sub_inactive := entire_sub_inactive l && negb (is_active moderator) in
      let moderator :=
        {| name := name moderator;
           is_active := is_active moderator;
           position := Some pos |} in
      let '(self, my_position, im_active) :=
        if String.eqb (name moderator) (me self) then
          (set_status i pos (is_active moderator) (log info "" (Some moderator) self),
           Some pos, is_active moderator)
        else (self, my_position l, im_active l) in
      let l :=
        match my_position with
        | None =>
            {| entire_sub_inactive := entire_sub_inactive;
               above_me := above_me l ++ [moderator];
               below_me := below_me l;
               my_position := my_position;
               im_active := im_active |}
        | Some _ =>
            {| entire_sub_inactive := entire_sub_inactive;
               above_me := above_me l;
               below_me := below_me l ++ [moderator];
               my_position := my_position;
               im_active := im_active |}
        end in
      for_moderators i (S pos) rest self l
  end.

Definition inactive_of (moderators : list Redditor) : list Redditor :=
  List.filter (λ moderator, negb (is_active moderator)) moderators.

Definition active_of (moderators : list Redditor) : list Redditor :=
  List.filter (λ moderator, is_active moderator) moderators.

(** The [match my_position, im_active] statement. *)
Definition ladder (i : nat) (l : Locals) (buckets : Buckets) : Buckets :=
  match my_position l, im_active l with
  | Some 1, true => fire active_top_mod i [] buckets
  | Some 1, false => fire inactive_top_mod i (inactive_of (above_me l)) buckets
  | Some 2, false => fire inactive_top_2 i (inactive_of (above_me l)) buckets
  | Some 3, false => fire inactive_top_3 i (inactive_of (above_me l)) buckets
  | Some 4, false | Some 5, false =>
      fire inactive_top_5 i (inactive_of (above_me l)) buckets
  | Some 6, false | Some 7, false | Some 8, false | Some 9, false | Some 10, false =>
      fire inactive_top_10 i (inactive_of (above_me l)) buckets
  | _, _ => buckets
  end.

(** The statements of the loop body after the roster has been read. *)
Definition classify (i : nat) (l : Locals) (buckets : Buckets) : Buckets :=
  let buckets := fire all_subreddits i [] buckets in
  let buckets :=
    if entire_sub_inactive l then fire no_active_mods i [] buckets else buckets in
  let buckets := ladder i l buckets in
  let buckets :=
    if negb (im_active l) then fire inactive i [] buckets else buckets in
  let buckets :=
    if im_active l && contain_inactive (above_me l)
    then fire active_inactive_above i (inactive_of (above_me l)) buckets
    else buckets in
  let buckets :=
    if im_active l && contain_all_inactive (above_me l)
    then fire top_active_mod i (inactive_of (above_me l)) buckets
    else buckets in
  let buckets :=
    if im_active l && contain_all_inactive (above_me l)
       && contain_all_inactive (below_me l)
    then fire only_one_active i (inactive_of (above_me l ++ below_me l)) buckets
    else buckets in
  if negb (im_active l) && contain_active (below_me l)
  then fire inactive_active_below i (active_of (below_me l)) buckets
  else buckets.

(** The body of [for subreddit in self.subreddits], for the object at
    index [i].  [moderators] is the platform: the roster listing it
    serves for a subreddit name. *)
Definition scan_subreddit (moderators : string → Listing Redditor)
    (i : nat) (subreddit : Subreddit) (acc : t * Buckets) : t * Buckets :=
  let '(self, buckets) := acc in
  let generator := moderators (display_name subreddit) in
  let '(self, l) := for_moderators i 1 (yielded generator) self fresh_locals in
  match raises generator with
  | Some _ =>
      (log warning ("Error getting moderators for r/" +:+ display_name subreddit)
         None self, buckets)
  | None => (self, classify i l buckets)
  end.

Fixpoint for_subreddits (moderators : string → Listing Redditor)
    (i : nat) (rest : list Subreddit) (acc : t * Buckets) : t * Buckets :=
  match rest with
  | [] => acc
  | subreddit :: rest =>
      for_subreddits moderators (S i) rest (scan_subreddit moderators i subreddit acc)
  end.

(** A transformation of the class state that only appends, to every
    bucket, entries that do not depend on what the buckets hold. *)
Definition appender (f : Buckets → Buckets) : Prop :=
  ∃ added : Attr → list (nat * list Redditor),
    ∀ buckets a,
      SubredditBucket.bucket (f buckets a) = SubredditBucket.bucket (buckets a) ++ added a.

(** [scan]: the instance and the class state afterwards. *)
Definition scan (moderators : string → Listing Redditor) (self : t)
    (buckets : Buckets) : t * Buckets :=
  for_subreddits moderators 0 (subreddits self) (self, buckets).

(** The moderators of a roster as the roster loop stores them: each with
    its [position], counted from [pos]. *)
Fixpoint numbered (pos : nat) (roster : list Redditor) : list Redditor :=
  match roster with
  | [] => []
  | moderator :: rest =>
      {| name := name moderator;
         is_active := is_active moderator;
         position := Some pos |} :: numbered (S pos) rest
  end.

(** The entries of the subreddits, from index [i] on, whose roster
    listing does not raise. *)
Fixpoint fetched (moderators : string → Listing Redditor) (i : nat)
    (rest : list Subreddit) : list (nat * list Redditor) :=
  match rest with
  | [] => []
  | subreddit :: rest =>
      match raises (moderators (display_name subreddit)) with
      | Some _ => fetched moderators (S i) rest
      | None => (i, []) :: fetched moderators (S i) rest
      end
  end.

(** What the roster loop keeps true of its locals: entries go below
    once the self entry has been met, and an active self is itself one
    of the entries below. *)
Definition roster_invariant (l : Locals) : Prop :=
  (my_position l = None → below_me l = [] ∧ im_active l = false) ∧
  (im_active l = true → contain_active (below_me l) = true).

(** The attributes the [match] statement can fire. *)
Definition ladder_attrs : list Attr :=
  [active_top_mod; inactive_top_mod; inactive_top_2; inactive_top_3; inactive_top_5;
   inactive_top_10].

(** The shape of the two lists of the roster loop relative to the
    self subject [me_name]. *)
Definition split_at_self (me_name : string) (l : Locals) : Prop :=
  (∀ m, m ∈ above_me l → name m ≠ me_name) ∧
  match my_position l with
  | None => below_me l = []
  | Some _ => ∃ m rest, below_me l = m :: rest ∧ name m = me_name ∧
                        position m = Some (S (length (above_me l)))
  end.

End InactivityManager.

(* ===================================================================== *)
(** ** models/config.py                                                   *)
(* ===================================================================== *)

Module Config.

(** The integer fields of [class Config] (the fourth field, [username],
    is a string and is never converted). *)
Inductive IntField := min_age | min_score | min_subscriber_count.

(** A pydantic [Field(...)]: its description and the extra keywords
    given to it, absent when not given. *)
Record Field := mkField {
  description : string;
  unit : option string;
  from_user : option (Z → Z);
  from_config : option (Z → Z)
}.

(** The values of a loaded configuration. *)
Record t := mk {
  min_age_value : Z;
  min_score_value : Z;
  min_subscriber_count_value : Z;
  username : string
}.

Definition field_name (f : IntField) : string :=
  match f with
  | min_age => "min_age"
  | min_score => "min_score"
  | min_subscriber_count => "min_subscriber_count"
  end.

(** [Config.model_fields], as the class body declares the fields. *)
Definition model_fields (f : IntField) : Field :=
  match f with
  | min_age =>
      {| description := "The minimum age of a post to be considered by the bot.";
         unit := Some "hours";
         from_user := Some (λ x, x * 3600)%Z;
         from_config := Some (λ x, x / 3600)%Z |}
  | min_score =>
      {| description := "The minimum score of a post to be considered by the bot.";
         unit := None; from_user := None; from_config := None |}
  | min_subscriber_count =>
      {| description :=
           "The minimum subscriber count of a subreddit for the bot to consider.";
         unit := None; from_user := None; from_config := None |}
  end.

(** [getattr(config, field_name)]. *)
Definition getattr (config : t) (f : IntField) : Z :=
  match f with
  | min_age => min_age_value config
  | min_score => min_score_value config
  | min_subscriber_count => min_subscriber_count_value config
  end.

(** [Config.get_field_attr(field, attr, default)], for an extra keyword
    [attr] of the field. *)
Definition get_field_attr {A : Type} (attr : option A) (default : A) : A :=
  match attr with
  | Some v => v
  | None => default
  end.

(** [str.lstrip(".")], [str.rstrip(".")] and [str.strip(".")]. *)
Fixpoint lstrip_dots (s : string) : string :=
  match s with
  | String c rest => if Ascii.eqb c "."%char then lstrip_dots rest else s
  | EmptyString => ""
  end.

Fixpoint rstrip_dots (s : string) : string :=
  match s with
  | String c rest =>
      let rest := rstrip_dots rest in
      if Ascii.eqb c "."%char && String.eqb rest "" then "" else String c rest
  | EmptyString => ""
  end.

Definition strip_dots (s : string) : string := rstrip_dots (lstrip_dots s).

(** [Config.to_cli_description]. *)
Definition to_cli_description (f : IntField) : string :=
  let field := model_fields f in
  let description := description field in
  match get_field_attr (Some <$> unit field) None with
  | Some unit =>
      if String.eqb unit "" then description
      else strip_dots description +:+ ". (in " +:+ unit +:+ ")."
  | None => description
  end.

(** [Config.to_prompt]. *)
Definition to_prompt (f : IntField) : string :=
  let field := model_fields f in
  let prompt := "Enter the " +:+ field_name f in
  let prompt :=
    match get_field_attr (Some <$> unit field) None with
    | Some unit =>
        if String.eqb unit "" then prompt else prompt +:+ " (in " +:+ unit +:+ ")."
    | None => prompt
    end in
  if String.eqb (description field) "" then prompt
  else strip_dots prompt +:+ ". " +:+ description field.

End Config.

(* ===================================================================== *)
(** ** utils.py                                                           *)
(* ===================================================================== *)

Module Utils.

(** [utils.prompt_then_fallback_to_config(context, param, value)] for the
    parameter named after the field [param].  [prompt] is the user at
    the terminal: the answer to [click.prompt(text, default=...)].  The
    result is the value returned and the prompt shown, if one was. *)
Definition prompt_then_fallback_to_config (config : Config.t)
    (prompt : string → Z → Z) (param : Config.IntField) (value : option Z)
    : Z * option (string * Z) :=
  let field := Config.model_fields param in
  let from_user := Config.get_field_attr (Config.from_user field) (λ val, val) in
  let truthy := match value with Some v => negb (v =? 0)%Z | None => false end in
  if truthy then (from_user (default 0%Z value), None)
  else
    let from_config := Config.get_field_attr (Config.from_config field) (λ val, val) in
    let text := Config.to_prompt param in
    let shown := from_config (Config.getattr config param) in
    (from_user (prompt text shown), Some (text, shown)).

(** A [dateutil.relativedelta] between two instants, normalised. *)
Record relativedelta := mkDelta {
  years : Z;
  months : Z;
  days : Z;
  hours : Z;
  minutes : Z;
  seconds : Z
}.

(** [relativedelta.weeks]: [int(self.days / 7.0)]. *)
Definition weeks (delta : relativedelta) : Z := Z.quot (days delta) 7.

Definition attrs : list (string * string) :=
  [("year", "y"); ("month", "mo"); ("day", "d"); ("hour", "h"); ("minute", "m");
   ("second", "s")].

(** [getattr(delta, attr + "s")]. *)
Definition getattr (delta : relativedelta) (attr : string) : Z :=
  if String.eqb attr "year" then years delta
  else if String.eqb attr "month" then months delta
  else if String.eqb attr "day" then days delta
  else if String.eqb attr "hour" then hours delta
  else if String.eqb attr "minute" then minutes delta
  else seconds delta.

(** The body of [for attr, brief_attr in attrs] of [human_timedelta]. *)
Definition append_unit (delta : relativedelta) (output : list string)
    (a : string * string) : list string :=
  let '(attr, brief_attr) := a in
  let elem := getattr delta attr in
  if (elem =? 0)%Z then output
  else
    let '(elem, output) :=
      if String.eqb attr "day" then
        let weeks := weeks delta in
        if (weeks =? 0)%Z then (elem, output)
        else ((elem - weeks * 7)%Z, output ++ [pretty weeks +:+ "w"])
      else (elem, output) in
    if (elem <=? 0)%Z then output
    else output ++ [pretty elem +:+ brief_attr].

(** [output[:accuracy]] for an integer [accuracy]. *)
Definition slice_to (accuracy : Z) (output : list string) : list string :=
  if (0 <=? accuracy)%Z then take (Z.to_nat accuracy) output
  else take (length output - Z.to_nat (- accuracy)) output.

(** The value of [output] when [human_timedelta] leaves the loop and
    has cut the list to [accuracy]. *)
Definition units (delta : relativedelta) (accuracy : option Z) : list string :=
  let output := foldl (append_unit delta) [] attrs in
  match accuracy with
  | Some a => slice_to a output
  | None => output
  end.

(** [utils.human_timedelta], from the point where the two instants have
    been compared: [in_future] is [dt > now] and [delta] the
    [relativedelta] between the later and the earlier instant. *)
Definition human_timedelta (delta : relativedelta) (in_future : bool)
    (accuracy : option Z) (suffix : bool) : string :=
  let output_suffix := if negb in_future && suffix then " ago" else "" in
  let output := units delta accuracy in
  if Nat.eqb (length output) 0 then "now"
  else String.concat " " output +:+ output_suffix.

(** The text [human_timedelta] prints for a unit: nothing unless the
    value is positive. *)
Definition unit_text (value : Z) (brief_attr : string) : list string :=
  if (0 <? value)%Z then [pretty value +:+ brief_attr] else [].

End Utils.

(* ===================================================================== *)
(** ** cli.py                                                             *)
(* ===================================================================== *)

Module Cli.

Section Commands.
Variable now : Z.
Variable style : string → string → string.
Variable human_timedelta : Z → bool → string.

(** The rule set the [modqueue] command gives to every scanner. *)
Definition modqueue_checks (min_score min_age : Z) : list (Check Item) :=
  [ check_score style min_score;
    check_age now style human_timedelta min_age;
    check_removed_by_automated_spam style ].

(** The body of [for subreddit in subreddits] of the [modqueue] command:
    the scanner it builds for a subreddit and its modqueue listing, after
    the scan and the actions, and whether an action raised. *)
Definition modqueue_subreddit (dry_run : bool) (remote : Modqueue.Remote)
    (min_score min_age : Z) (reapprove : bool)
    (subreddit : string * Listing Item) : Outcome unit * Modqueue.t :=
  let scanner :=
    Modqueue.init subreddit.1 subreddit.2 (modqueue_checks min_score min_age) reapprove in
  let '((remove_count, approve_count), scanner) := Modqueue.scan scanner in
  if negb dry_run then
    let '(outcome, scanner) :=
      if negb (Nat.eqb remove_count 0) then Modqueue.remove_found remote scanner
      else (Return (), scanner) in
    match outcome with
    | Raise e => (Raise e, scanner)
    | Return _ =>
        if negb (Nat.eqb approve_count 0) then Modqueue.reapprove_found remote scanner
        else (Return (), scanner)
    end
  else (Return (), scanner).

(** The [modqueue] command over the subreddits of the context: the
    scanners it has built, in order, and whether an action raised (which
    ends the command). *)
Fixpoint modqueue (dry_run : bool) (remote : Modqueue.Remote)
    (min_score min_age : Z) (reapprove : bool)
    (subreddits : list (string * Listing Item)) : Outcome unit * list Modqueue.t :=
  match subreddits with
  | [] => (Return (), [])
  | subreddit :: rest =>
      match modqueue_subreddit dry_run remote min_score min_age reapprove subreddit with
      | (Raise e, scanner) => (Raise e, [scanner])
      | (Return _, scanner) =>
          let '(outcome, scanners) :=
            modqueue dry_run remote min_score min_age reapprove rest in
          (outcome, scanner :: scanners)
      end
  end.

(** [datetime.fromisoformat] on the timestamps of the platform. *)
Variable fromisoformat : string → Z.

(** The rule set the [modmail] command gives to its scanner. *)
Definition modmail_checks (ignore_unanswered ignore_pending_response : bool)
    : list Modmail.PartialCheck :=
  [ Modmail.returning (check_unanswered style ignore_unanswered);
    check_pending_response style fromisoformat ignore_pending_response ].

(** The [modmail] command, from the scanner on.  [confirm] is the
    user's answer to [click.confirm(..., abort=True)], which raises when
    it is no.  The result tells whether the command raised, whether the
    confirmation was asked, the [archive()] calls sent and the scanner
    at the end.  The second check can raise, so the rule set is carried
    beside the scanner record and run by [Modmail.partial_scan]. *)
Definition modmail (dry_run confirm : bool)
    (archive_raises : Conversation → option string)
    (listing : string → Listing Conversation) (states : list string)
    (ignore_unanswered ignore_pending_response : bool)
    : Outcome unit * bool * list Conversation * Modmail.t :=
  let scanner := Modmail.init listing [] states in
  match Modmail.partial_scan
          (modmail_checks ignore_unanswered ignore_pending_response) scanner with
  | (Raise e, scanner) => (Raise e, false, [], scanner)
  | (Return archive_count, scanner) =>
      if Nat.eqb archive_count 0 then (Return (), false, [], scanner)
      else if negb confirm then (Raise OtherException, true, [], scanner)
      else if dry_run then (Return (), true, [], scanner)
      else
        let '(sent, scanner) := Modmail.archive_found archive_raises scanner in
        (Return (), true, sent, scanner)
  end.
End Commands.

End Cli.

(* ===================================================================== *)
(** ** Example data                                                       *)
(* ===================================================================== *)

Module Examples.

(** A clock reading and a rendering of time spans, for the examples. *)
Definition clock : Z := 1700000000.
Definition span (epoch : Z) (suffix : bool) : string :=
  pretty (clock - epoch)%Z +:+ "s" +:+ (if suffix then " ago" else "").

(** The rule set the [modqueue] command of [cli.py] assembles. *)
Definition cli_checks (min_score min_age : Z) : list (Check Item) :=
  [ check_score ansi_style min_score;
    check_age clock ansi_style span min_age;
    check_removed_by_automated_spam ansi_style ].

(** An old, low-scored item that the spam filter removed. *)
Definition spam_item : Item :=
  {| item_id := "t3_spam"; created_utc := 1600000000; score := 5;
     approved_by := None; removed_by_category := Some "reddit";
     banned_by := BannedTrue; ban_note := Some "spam" |}.

(** The same item, approved by a moderator before. *)
Definition approved_spam_item : Item :=
  {| item_id := "t3_spam"; created_utc := 1600000000; score := 5;
     approved_by := Some "some_mod"; removed_by_category := Some "reddit";
     banned_by := BannedTrue; ban_note := Some "spam" |}.

(** An old, low-scored item that a moderator approved before. *)
Definition approved_item : Item :=
  {| item_id := "t1_ok"; created_utc := 1600000000; score := 5;
     approved_by := Some "some_mod"; removed_by_category := None;
     banned_by := NotBanned; ban_note := None |}.

(** A recent, well-scored item nobody touched. *)
Definition fine_item : Item :=
  {| item_id := "t1_fine"; created_utc := 1699999990; score := 50;
     approved_by := None; removed_by_category := None;
     banned_by := NotBanned; ban_note := None |}.

(** A platform on which every moderation call succeeds. *)
Definition obliging : Modqueue.Remote :=
  {| Modqueue.remove_raises := λ _, None;
     Modqueue.lock_raises := λ _, None;
     Modqueue.approve_raises := λ _, None |}.

(** A conversation a moderator started and the user never answered. *)
Definition mod_started : Conversation :=
  {| conv_id := "abc12"; owner_display_name := "pics";
     last_mod_update := Some "2024-01-01T00:00:00.000000+00:00";
     last_user_update := None; is_internal := false |}.

(** A conversation no moderator has answered. *)
Definition waiting : Conversation :=
  {| conv_id := "def34"; owner_display_name := "pics";
     last_mod_update := None;
     last_user_update := Some "2024-01-02T00:00:00.000000+00:00";
     is_internal := false |}.

(** A roster made of the scanning moderator alone, active. *)
Definition alone : string → Listing Redditor :=
  λ _, mkListing [mkRedditor "me" true None] None.

Definition classifier : InactivityManager.t :=
  InactivityManager.init [InactivityManager.mkSubreddit "pics" None None] "me".

(** A platform on which every lock call fails. *)
Definition unlockable : Modqueue.Remote :=
  {| Modqueue.remove_raises := λ _, None;
     Modqueue.lock_raises := λ _, Some OtherException;
     Modqueue.approve_raises := λ _, None |}.

(** A platform that refuses to remove anything. *)
Definition unremovable : Modqueue.Remote :=
  {| Modqueue.remove_raises := λ _, Some Forbidden;
     Modqueue.lock_raises := λ _, None;
     Modqueue.approve_raises := λ _, None |}.

(** A platform that refuses to approve what the spam filter removed. *)
Definition keeps_spam_removed : Modqueue.Remote :=
  {| Modqueue.remove_raises := λ _, None;
     Modqueue.lock_raises := λ _, None;
     Modqueue.approve_raises :=
       λ item, if spam_flagged item then Some Forbidden else None |}.

(** A reading of ISO timestamps for the examples: the number their
    digits spell (which orders timestamps of one timezone as time
    does). *)
Fixpoint digits_of (s : string) (acc : Z) : Z :=
  match s with
  | EmptyString => acc
  | String c rest =>
      let n := Ascii.nat_of_ascii c in
      if (48 <=? n)%nat && (n <=? 57)%nat
      then digits_of rest (10 * acc + Z.of_nat (n - 48))%Z
      else digits_of rest acc
  end.

Definition instant (s : string) : Z := digits_of s 0.

(** A conversation the user wrote in and a moderator answered later. *)
Definition answered : Conversation :=
  {| conv_id := "ghi56"; owner_display_name := "pics";
     last_mod_update := Some "2024-01-03T00:00:00.000000+00:00";
     last_user_update := Some "2024-01-02T00:00:00.000000+00:00";
     is_internal := false |}.

End Examples.

(* ===================================================================== *)
(** ** Facts about the item-queue scanner                                 *)
(* ===================================================================== *)

Section ModqueueFacts.
Import Modqueue.

Implicit Types (self : t) (item : Item) (cs pre post : list (Check Item)).

Lemma calls_from_S i n item :
  calls_from i (S n) item = (i, item) :: calls_from (S i) n item.
Proof. reflexivity. Qed.

(** The check loop touches neither the configuration of the scanner
    nor the remove bucket. *)
Lemma for_checks_frame item cs : ∀ i self r m,
  let self' := (for_checks item i cs self r m).1.1 in
  checks self' = checks self ∧ reapprove self' = reapprove self ∧
  listing self' = listing self ∧ subreddit self' = subreddit self ∧
  items_to_remove self' = items_to_remove self ∧ issued self' = issued self.
Proof.
  induction cs as [|c cs IH]; intros i self r m; simpl; [done|].
  destruct (reapprove self && truthy (approved_by item)); simpl; [done|].
  destruct (call c item) as [result message].
  destruct (result && bool_decide (qualifier c = ANY)); simpl; [done|].
  exact (IH (S i) (record_call i item self) _ _).
Qed.

(** With a previously approved item and reapproval enabled, the first
    iteration of a non-empty check loop leaves it for the reapprove
    bucket. *)
Lemma for_checks_bypass item c cs i self r m :
  previously_approved self item = true →
  for_checks item i (c :: cs) self r m =
    (append_reapprove item
       (log info ("Previously approved by u/" +:+ default "None" (approved_by item))
          (Some item) self), false, m).
Proof. unfold previously_approved. simpl. by intros ->. Qed.

(** Without the bypass, a prefix of checks none of which is a matching
    [ANY] check is run through entirely. *)
Lemma for_checks_prefix item pre : ∀ post i self r m,
  previously_approved self item = false →
  forallb (λ c, negb (any_hit item c)) pre = true →
  ∃ self',
    for_checks item i (pre ++ post) self r m =
      for_checks item (i + length pre) post self'
        (r && all_verdicts item pre) (m ++ matched_reasons item pre) ∧
    previously_approved self' item = false ∧
    items_to_reapprove self' = items_to_reapprove self ∧
    items_to_remove self' = items_to_remove self ∧
    logged self' = logged self ∧
    invoked self' = invoked self ++ calls_from i (length pre) item.
Proof.
  induction pre as [|c pre IH]; intros post i self r m Hno Hpre.
  - exists self. simpl. rewrite Nat.add_0_r, andb_true_r, !app_nil_r. done.
  - simpl in Hpre. apply andb_true_iff in Hpre as [Hc Hpre].
    unfold any_hit in Hc. apply negb_true_iff in Hc.
    unfold previously_approved in Hno.
    destruct (IH post (S i) (record_call i item self)
                (if decide (qualifier c = ALL) then r && (call c item).1 else r)
                (if (call c item).1 then m ++ [(call c item).2] else m))
      as (self' & Heq & Hno' & Hre & Hrm & Hlog & Hinv); [done|done|].
    exists self'. split_and!; try done.
    + cbn [for_checks app length]. rewrite Hno.
      destruct (call c item) as [result message] eqn:Hcall.
      cbn [fst snd] in *. rewrite Hc, Heq.
      replace (S i + length pre) with (i + S (length pre)) by lia.
      assert (Hr : (if decide (qualifier c = ALL) then r && result else r)
                     && all_verdicts item pre
                   = r && all_verdicts item (c :: pre)).
      { unfold all_verdicts. simpl. rewrite Hcall. simpl.
        destruct (decide (qualifier c = ALL)); [by rewrite andb_assoc|done]. }
      assert (Hm : (if result then m ++ [message] else m) ++ matched_reasons item pre
                   = m ++ matched_reasons item (c :: pre)).
      { unfold matched_reasons. simpl. rewrite Hcall. simpl.
        destruct result; [by rewrite <-app_assoc|done]. }
      by rewrite Hr, Hm.
    + rewrite Hinv. simpl. by rewrite <-app_assoc.
Qed.

(** A rule set with a matching [ANY] check has a first one. *)
Lemma first_any_hit item cs :
  existsb (any_hit item) cs = true →
  ∃ pre c post,
    cs = pre ++ c :: post ∧
    forallb (λ c, negb (any_hit item c)) pre = true ∧
    any_hit item c = true.
Proof.
  induction cs as [|c cs IH]; simpl; [done|].
  destruct (any_hit item c) eqn:Hc; simpl.
  - intros _. by exists [], c, cs.
  - intros (pre & c' & post & -> & Hpre & Hc')%IH.
    exists (c :: pre), c', post. simpl. by rewrite Hc.
Qed.

(** The check loop up to and including the first matching [ANY] check. *)
Lemma for_checks_any item pre c post self :
  previously_approved self item = false →
  forallb (λ c, negb (any_hit item c)) pre = true →
  any_hit item c = true →
  ∃ self',
    for_checks item 0 (pre ++ c :: post) self true [] =
      (self', true, matched_reasons item pre ++ [(call c item).2]) ∧
    items_to_reapprove self' = items_to_reapprove self ∧
    items_to_remove self' = items_to_remove self ∧
    logged self' = logged self ∧
    invoked self' = invoked self ++ calls_from 0 (S (length pre)) item.
Proof.
  intros Hno Hpre Hc.
  destruct (for_checks_prefix item pre (c :: post) 0 self true [] Hno Hpre)
    as (self1 & Heq & Hno1 & Hre & Hrm & Hlog & Hinv).
  unfold any_hit in Hc. apply andb_true_iff in Hc as [Hres Hany].
  exists (record_call (length pre) item self1). split_and!; try done.
  - rewrite Heq. cbn [for_checks]. unfold previously_approved in Hno1.
    rewrite Hno1. destruct (call c item) as [result message].
    cbn [fst snd] in *. subst result. rewrite Hany. cbn [andb].
    by rewrite app_nil_l.
  - cbn [record_call invoked]. rewrite Hinv, <-app_assoc. f_equal.
    unfold calls_from. rewrite seq_S, fmap_app. done.
Qed.

(** The check loop over a rule set without a matching [ANY] check. *)
Lemma for_checks_all item cs self :
  previously_approved self item = false →
  forallb (λ c, negb (any_hit item c)) cs = true →
  ∃ self',
    for_checks item 0 cs self true [] =
      (self', all_verdicts item cs, matched_reasons item cs) ∧
    items_to_reapprove self' = items_to_reapprove self ∧
    items_to_remove self' = items_to_remove self ∧
    logged self' = logged self ∧
    invoked self' = invoked self ++ calls_from 0 (length cs) item.
Proof.
  intros Hno Hcs.
  destruct (for_checks_prefix item cs [] 0 self true [] Hno Hcs)
    as (self1 & Heq & _ & Hre & Hrm & Hlog & Hinv).
  exists self1. split_and!; try done.
  by rewrite app_nil_r in Heq.
Qed.

(** The locals the check loop ends with depend on the scanner only
    through [reapprove]. *)
Lemma for_checks_locals item cs : ∀ i j self1 self2 r m,
  reapprove self1 = reapprove self2 →
  (for_checks item i cs self1 r m).1.2 = (for_checks item j cs self2 r m).1.2 ∧
  (for_checks item i cs self1 r m).2 = (for_checks item j cs self2 r m).2.
Proof.
  induction cs as [|c cs IH]; intros i j self1 self2 r m Hre; simpl; [done|].
  rewrite Hre. destruct (reapprove self2 && truthy (approved_by item)); [done|].
  destruct (call c item) as [result message].
  destruct (result && bool_decide (qualifier c = ANY)); [done|].
  by apply IH.
Qed.

Lemma verdict_config self1 self2 item :
  checks self1 = checks self2 → reapprove self1 = reapprove self2 →
  verdict self1 item = verdict self2 item.
Proof.
  intros Hcs Hre. unfold verdict. rewrite Hcs.
  by apply for_checks_locals.
Qed.

(** What the check loop does to the reapprove bucket. *)
Lemma for_checks_reapprove item cs : ∀ i self r m,
  items_to_reapprove (for_checks item i cs self r m).1.1 =
    items_to_reapprove self ++
    (if previously_approved self item && negb (bool_decide (cs = []))
     then [item] else []).
Proof.
  unfold previously_approved.
  induction cs as [|c cs IH]; intros i self r m; simpl.
  - by rewrite andb_false_r, app_nil_r.
  - destruct (reapprove self && truthy (approved_by item)) eqn:Hno; simpl; [done|].
    destruct (call c item) as [result message].
    destruct (result && bool_decide (qualifier c = ANY)); simpl.
    + by rewrite app_nil_r.
    + rewrite (IH (S i) (record_call i item self)). simpl. by rewrite Hno.
Qed.

(** The body of the item loop keeps the configuration and appends to
    the two buckets as [verdict] and [reapproved] say. *)
Lemma scan_item_effect self item :
  checks (scan_item self item) = checks self ∧
  reapprove (scan_item self item) = reapprove self ∧
  items_to_remove (scan_item self item) =
    items_to_remove self ++ (if verdict self item then [item] else []) ∧
  items_to_reapprove (scan_item self item) =
    items_to_reapprove self ++ (if reapproved self item then [item] else []).
Proof.
  unfold scan_item, verdict, reapproved.
  pose proof (for_checks_frame item (checks self) 0 self true []) as Hf.
  pose proof (for_checks_reapprove item (checks self) 0 self true []) as Hr.
  destruct (for_checks item 0 (checks self) self true []) as [[self' remove] messages].
  simpl in *. destruct Hf as (Hcs & Hre & _ & _ & Hrm & _).
  destruct remove; simpl; rewrite ?app_nil_r; by rewrite ?Hrm.
Qed.

(** The buckets after the item loop has run over [items]. *)
Lemma foldl_scan_item items : ∀ self,
  let self' := foldl scan_item self items in
  checks self' = checks self ∧ reapprove self' = reapprove self ∧
  items_to_remove self' =
    items_to_remove self ++ List.filter (verdict self) items ∧
  items_to_reapprove self' =
    items_to_reapprove self ++ List.filter (reapproved self) items.
Proof.
  induction items as [|item items IH]; intros self; simpl.
  - by rewrite !app_nil_r.
  - destruct (IH (scan_item self item)) as (Hcs & Hre & Hrm & Hra).
    destruct (scan_item_effect self item) as (Hcs1 & Hre1 & Hrm1 & Hra1).
    split_and!.
    + by rewrite Hcs.
    + by rewrite Hre.
    + rewrite Hrm, Hrm1, <-app_assoc. f_equal.
      rewrite (filter_ext (verdict (scan_item self item)) (verdict self))
        by (intros x; by apply verdict_config).
      by destruct (verdict self item).
    + rewrite Hra, Hra1, <-app_assoc. f_equal.
      rewrite (filter_ext (reapproved (scan_item self item)) (reapproved self)).
      * by destruct (reapproved self item).
      * intros x. unfold reapproved, previously_approved. by rewrite Hcs1, Hre1.
Qed.

(** The log lines that end [scan] leave the buckets as the item loop
    built them. *)
Lemma scan_buckets self :
  let after := foldl scan_item self (yielded (listing self)) in
  items_to_remove (scan self).2 = items_to_remove after ∧
  items_to_reapprove (scan self).2 = items_to_reapprove after.
Proof.
  unfold scan. destruct (raises (listing self)) as [[]|]; done.
Qed.

(** [remove_found], when no [remove()] raises: every item of the
    bucket gets a remove call and then a lock call. *)
Lemma remove_loop_issued remote items : ∀ self,
  (∀ item, item ∈ items → remove_raises remote item = None) →
  (remove_loop remote items self).1 = Return () ∧
  issued (remove_loop remote items self).2 =
    issued self ++ (items ≫= λ item, [Remove item; Lock item]).
Proof.
  induction items as [|item items IH]; intros self Hok; simpl.
  - by rewrite app_nil_r.
  - rewrite (Hok item) by left.
    assert (Hrest : ∀ x, x ∈ items → remove_raises remote x = None)
      by (intros x Hx; apply Hok; by right).
    destruct (lock_raises remote item);
      match goal with |- context [remove_loop remote items ?s] =>
        destruct (IH s Hrest) as [-> ->] end;
      simpl; by rewrite <-!app_assoc.
Qed.

(** [reapprove_found], when no [approve()] raises: every item of the
    bucket gets an approve call, and nothing else is sent. *)
Lemma reapprove_loop_issued remote items : ∀ self,
  (∀ item, item ∈ items → approve_raises remote item = None) →
  (reapprove_loop remote items self).1 = Return () ∧
  issued (reapprove_loop remote items self).2 = issued self ++ (Approve <$> items).
Proof.
  induction items as [|item items IH]; intros self Hok; simpl.
  - by rewrite app_nil_r.
  - rewrite (Hok item) by left.
    destruct (IH (log info "Re-approved" (Some item) (issue (Approve item) self)))
      as [-> ->]; [intros x Hx; apply Hok; by right|].
    simpl. by rewrite <-app_assoc.
Qed.

(** The action loops only add to the calls sent. *)
Lemma remove_loop_mono remote items : ∀ self a,
  a ∈ issued self → a ∈ issued (remove_loop remote items self).2.
Proof.
  induction items as [|item items IH]; intros self a Ha; simpl; [done|].
  destruct (remove_raises remote item); simpl.
  - apply elem_of_app. by left.
  - destruct (lock_raises remote item); apply IH; simpl;
      apply elem_of_app; left; apply elem_of_app; by left.
Qed.

Lemma reapprove_loop_mono remote items : ∀ self a,
  a ∈ issued self → a ∈ issued (reapprove_loop remote items self).2.
Proof.
  induction items as [|item items IH]; intros self a Ha; simpl; [done|].
  destruct (approve_raises remote item); simpl.
  - apply elem_of_app. by left.
  - apply IH. simpl. apply elem_of_app. by left.
Qed.

(** [remove_found] reaches every item before which no [remove()]
    raises: it sends the remove call for it and, when that call does not
    raise either, the lock call. *)
Lemma remove_loop_reaches remote front : ∀ x back self,
  (∀ y, y ∈ front → remove_raises remote y = None) →
  Remove x ∈ issued (remove_loop remote (front ++ x :: back) self).2 ∧
  (remove_raises remote x = None →
   Lock x ∈ issued (remove_loop remote (front ++ x :: back) self).2).
Proof.
  induction front as [|y front IH]; intros x back self Hok.
  - cbn [app remove_loop]. destruct (remove_raises remote x) eqn:Hx.
    + split; [|done]. simpl. apply elem_of_app. right. constructor.
    + split; [|intros _];
        (destruct (lock_raises remote x); apply remove_loop_mono; simpl);
        rewrite !elem_of_app, !list_elem_of_singleton; auto.
  - cbn [app remove_loop]. rewrite (Hok y) by left.
    assert (Hpre : ∀ z, z ∈ front → remove_raises remote z = None)
      by (intros z Hz; apply Hok; by right).
    destruct (lock_raises remote y); by apply IH.
Qed.

(** [reapprove_found] reaches every item before which no [approve()]
    raises, and sends the approve call for it. *)
Lemma reapprove_loop_reaches remote front : ∀ x back self,
  (∀ y, y ∈ front → approve_raises remote y = None) →
  Approve x ∈ issued (reapprove_loop remote (front ++ x :: back) self).2.
Proof.
  induction front as [|y front IH]; intros x back self Hok.
  - cbn [app reapprove_loop]. destruct (approve_raises remote x).
    + simpl. apply elem_of_app. right. constructor.
    + apply reapprove_loop_mono. simpl. apply elem_of_app. right. constructor.
  - cbn [app reapprove_loop]. rewrite (Hok y) by left.
    apply IH. intros z Hz. apply Hok. by right.
Qed.

(** Whatever the platform answers, [reapprove_found] sends approve
    calls only, for a prefix of the reapprove bucket. *)
Lemma reapprove_found_only_approves remote self :
  ∃ n, issued (reapprove_found remote self).2 =
         issued self ++ (Approve <$> take n (items_to_reapprove self)).
Proof.
  unfold reapprove_found. generalize (items_to_reapprove self) as items.
  intros items. revert self.
  induction items as [|item items IH]; intros self; simpl.
  - exists 0. by rewrite app_nil_r.
  - destruct (approve_raises remote item).
    + exists 1. done.
    + destruct (IH (log info "Re-approved" (Some item) (issue (Approve item) self)))
        as [n ->].
      exists (S n). simpl. by rewrite <-app_assoc.
Qed.

(** With a non-empty rule set, a previously approved item is put in
    the reapprove bucket without any check being called on it. *)
Lemma scan_item_bypass self item :
  checks self ≠ [] →
  previously_approved self item = true →
  items_to_reapprove (scan_item self item) = items_to_reapprove self ++ [item] ∧
  items_to_remove (scan_item self item) = items_to_remove self ∧
  invoked (scan_item self item) = invoked self.
Proof.
  intros Hne Hyes. unfold scan_item.
  destruct (checks self) as [|c cs]; [done|].
  by rewrite for_checks_bypass.
Qed.

End ModqueueFacts.

(* ===================================================================== *)
(** ** The item-queue scanner against the specification                   *)
(* ===================================================================== *)

Section ModqueueClaims.
Import Modqueue Examples.

Implicit Types (self : t) (item : Item).

(** C1, as amended.  For a rule set containing an [ANY] check that
    matches the item, and an item to which the reapproval bypass does
    not apply (reapproval disabled, or no prior-approval marker), the
    check loop ends with [remove = True] whatever the other checks
    return, the item is appended to the remove bucket (and not to the
    reapprove bucket), and exactly the checks up to and including the
    first matching [ANY] check are called on it, once each: none of the
    checks declared after it is invoked. *)
Theorem any_match_marks_and_stops self item :
  existsb (any_hit item) (checks self) = true →
  previously_approved self item = false →
  ∃ pre c post,
    checks self = pre ++ c :: post ∧
    forallb (λ c, negb (any_hit item c)) pre = true ∧
    any_hit item c = true ∧
    verdict self item = true ∧
    items_to_remove (scan_item self item) = items_to_remove self ++ [item] ∧
    items_to_reapprove (scan_item self item) = items_to_reapprove self ∧
    invoked (scan_item self item) =
      invoked self ++ calls_from 0 (S (length pre)) item ∧
    (item ∈ yielded (listing self) → item ∈ items_to_remove (scan self).2).
Proof.
  intros (pre & c & post & Hcs & Hpre & Hc)%first_any_hit Hno.
  destruct (for_checks_any item pre c post self Hno Hpre Hc)
    as (self' & Heq & Hre & Hrm & Hlog & Hinv).
  assert (Hv : verdict self item = true).
  { unfold verdict. by rewrite Hcs, Heq. }
  exists pre, c, post. split_and!; try done.
  - unfold scan_item. rewrite Hcs, Heq. simpl. by rewrite Hrm.
  - unfold scan_item. rewrite Hcs, Heq. simpl. done.
  - unfold scan_item. rewrite Hcs, Heq. simpl. done.
  - intros Hin. destruct (scan_buckets self) as [-> _].
    destruct (foldl_scan_item (yielded (listing self)) self) as (_ & _ & -> & _).
    apply elem_of_app. right. apply list_elem_of_In, filter_In.
    split; [by apply list_elem_of_In|done].
Qed.

Lemma any_match_marks_and_stops_witness :
  let self :=
    init "pics" (mkListing [fine_item; spam_item] None) (cli_checks 10 3600) true in
  existsb (any_hit spam_item) (checks self) = true ∧
  previously_approved self spam_item = false ∧
  ∃ pre c post,
    checks self = pre ++ c :: post ∧
    forallb (λ c, negb (any_hit spam_item c)) pre = true ∧
    any_hit spam_item c = true ∧
    verdict self spam_item = true ∧
    items_to_remove (scan_item self spam_item) = items_to_remove self ++ [spam_item] ∧
    items_to_reapprove (scan_item self spam_item) = items_to_reapprove self ∧
    invoked (scan_item self spam_item) =
      invoked self ++ calls_from 0 (S (length pre)) spam_item ∧
    (spam_item ∈ yielded (listing self) → spam_item ∈ items_to_remove (scan self).2).
Proof.
  intros self. split; [vm_compute; reflexivity|]. split; [vm_compute; reflexivity|].
  apply (any_match_marks_and_stops self spam_item); vm_compute; reflexivity.
Defined.

(** C1 as stated fails: with reapproval enabled, a previously approved
    item that the [ANY] check of the rule set matches is not put in the
    remove bucket; it goes to the reapprove bucket. *)
Lemma any_match_counterexample :
  let self := init "pics" (mkListing [approved_spam_item] None) (cli_checks 10 3600) true in
  existsb (any_hit approved_spam_item) (checks self) = true ∧
  (scan self).1 = (0, 1) ∧
  items_to_remove (scan self).2 = [] ∧
  items_to_reapprove (scan self).2 = [approved_spam_item] ∧
  invoked (scan self).2 = [].
Proof. vm_compute. done. Qed.

Lemma all_qualifier_no_any_hit item (cs : list (Check Item)) :
  Forall (λ c, qualifier c = ALL) cs →
  forallb (λ c, negb (any_hit item c)) cs = true ∧
  all_verdicts item cs = forallb (λ c, (call c item).1) cs.
Proof.
  induction 1 as [|c cs Hc _ [IH1 IH2]]; simpl; [done|].
  rewrite IH1, IH2. unfold any_hit. rewrite Hc. simpl.
  rewrite andb_false_r. simpl. split; [done|].
  by destruct (decide (ALL = ALL)).
Qed.

(** C2, as amended.  For a rule set whose checks all have qualifier
    [ALL], and an item to which the reapproval bypass does not apply,
    the value of [remove] the check loop ends with is the conjunction
    of the verdicts of all the checks on the item, and the item is
    appended to the remove bucket exactly when it is true; with zero
    checks it is true, and such an item, pulled from the listing, is in
    the remove bucket after the scan. *)
Theorem all_checks_conjunction self item :
  Forall (λ c, qualifier c = ALL) (checks self) →
  previously_approved self item = false →
  verdict self item = forallb (λ c, (call c item).1) (checks self) ∧
  items_to_remove (scan_item self item) =
    items_to_remove self ++ (if verdict self item then [item] else []) ∧
  (checks self = [] →
     verdict self item = true ∧
     items_to_remove (scan_item self item) = items_to_remove self ++ [item] ∧
     (item ∈ yielded (listing self) → item ∈ items_to_remove (scan self).2)).
Proof.
  intros Hall Hno.
  destruct (all_qualifier_no_any_hit item (checks self) Hall) as [Hnone Hand].
  destruct (for_checks_all item (checks self) self Hno Hnone)
    as (self' & Heq & _ & Hrm & _ & _).
  assert (Hv : verdict self item = forallb (λ c, (call c item).1) (checks self)).
  { unfold verdict. by rewrite Heq, <-Hand. }
  destruct (scan_item_effect self item) as (_ & _ & Hitem & _).
  split_and!; try done.
  intros Hnil. rewrite Hitem, Hv, Hnil. simpl. split_and!; try done.
  intros Hin. destruct (scan_buckets self) as [-> _].
  destruct (foldl_scan_item (yielded (listing self)) self) as (_ & _ & -> & _).
  apply elem_of_app. right. apply list_elem_of_In, filter_In.
  split; [by apply list_elem_of_In|]. by rewrite Hv, Hnil.
Qed.

Lemma all_checks_conjunction_witness :
  let self :=
    init "pics" (mkListing [fine_item] None)
      [check_score ansi_style 10; check_age clock ansi_style span 3600] false in
  Forall (λ c, qualifier c = ALL) (checks self) ∧
  previously_approved self approved_item = false ∧
  verdict self approved_item = forallb (λ c, (call c approved_item).1) (checks self) ∧
  items_to_remove (scan_item self approved_item) =
    items_to_remove self ++ (if verdict self approved_item then [approved_item] else []) ∧
  (checks self = [] →
     verdict self approved_item = true ∧
     items_to_remove (scan_item self approved_item) =
       items_to_remove self ++ [approved_item] ∧
     (approved_item ∈ yielded (listing self) →
      approved_item ∈ items_to_remove (scan self).2)).
Proof.
  intros self.
  assert (Hall : Forall (λ c, qualifier c = ALL) (checks self))
    by (repeat constructor).
  split; [exact Hall|]. split; [reflexivity|].
  apply (all_checks_conjunction self approved_item Hall). reflexivity.
Defined.

(** C2 as stated fails: with reapproval enabled, for a previously
    approved item on which every check of an all-[ALL] rule set
    matches, the check loop ends with [remove = False] and the item is
    not put in the remove bucket. *)
Lemma all_checks_counterexample :
  let self :=
    init "pics" (mkListing [approved_item] None)
      [check_score ansi_style 10; check_age clock ansi_style span 3600] true in
  Forall (λ c, qualifier c = ALL) (checks self) ∧
  forallb (λ c, (call c approved_item).1) (checks self) = true ∧
  verdict self approved_item = false ∧
  items_to_remove (scan self).2 = [].
Proof. split; [repeat constructor|]. vm_compute. done. Qed.

(** C8, as amended.  When an [ANY] check matches an item to which the
    reapproval bypass does not apply, the message recorded for the item
    is the reasons of the checks that matched it, joined in order, from
    the first check of the rule set up to and including the first
    matching [ANY] check: the reasons of the matching checks evaluated
    before it are part of the recorded message, those of the checks
    after it are not. *)
Theorem any_match_records_reasons self item :
  existsb (any_hit item) (checks self) = true →
  previously_approved self item = false →
  ∃ pre c post,
    checks self = pre ++ c :: post ∧
    forallb (λ c, negb (any_hit item c)) pre = true ∧
    any_hit item c = true ∧
    reasons self item = matched_reasons item pre ++ [(call c item).2] ∧
    logged (scan_item self item) =
      logged self ++
      [mkLog info (String.concat " | " (matched_reasons item pre ++ [(call c item).2]))
         (Some item)].
Proof.
  intros (pre & c & post & Hcs & Hpre & Hc)%first_any_hit Hno.
  destruct (for_checks_any item pre c post self Hno Hpre Hc)
    as (self' & Heq & Hre & Hrm & Hlog & Hinv).
  exists pre, c, post. split_and!; try done.
  - unfold reasons. by rewrite Hcs, Heq.
  - unfold scan_item. rewrite Hcs, Heq. simpl. by rewrite Hlog.
Qed.

Lemma any_match_records_reasons_witness :
  let self :=
    init "pics" (mkListing [spam_item] None) (cli_checks 10 3600) false in
  existsb (any_hit spam_item) (checks self) = true ∧
  previously_approved self spam_item = false ∧
  ∃ pre c post,
    checks self = pre ++ c :: post ∧
    forallb (λ c, negb (any_hit spam_item c)) pre = true ∧
    any_hit spam_item c = true ∧
    reasons self spam_item = matched_reasons spam_item pre ++ [(call c spam_item).2] ∧
    logged (scan_item self spam_item) =
      logged self ++
      [mkLog info
         (String.concat " | " (matched_reasons spam_item pre ++ [(call c spam_item).2]))
         (Some spam_item)].
Proof.
  intros self. split; [vm_compute; reflexivity|]. split; [vm_compute; reflexivity|].
  apply (any_match_records_reasons self spam_item); vm_compute; reflexivity.
Defined.

(** C8 as stated fails: on the rule set of the command line, for an
    old, low-scored item that the spam filter removed, the [ANY] check
    matches and the recorded message holds the reasons of the score
    check and of the age check before the reason of the [ANY] check. *)
Lemma any_match_reasons_counterexample :
  let self := init "pics" (mkListing [spam_item] None) (cli_checks 10 3600) true in
  let spam := check_removed_by_automated_spam ansi_style in
  any_hit spam_item spam = true ∧
  reasons self spam_item =
    [ (call (check_score ansi_style 10) spam_item).2;
      (call (check_age clock ansi_style span 3600) spam_item).2;
      (call spam spam_item).2 ] ∧
  msg <$> logged (scan self).2 !! 0 =
    Some (String.concat " | " (reasons self spam_item)) ∧
  String.concat " | " (reasons self spam_item) ≠ (call spam spam_item).2.
Proof. vm_compute. split_and!; done. Qed.

(** C3 fails on the code.  With an empty rule set the body of the
    check loop, which holds the reapproval test, is never entered: a
    previously approved item, scanned with reapproval enabled, is not
    put in the reapprove bucket but in the remove bucket, so that
    [reapprove_found] sends nothing for it and [remove_found] sends a
    remove call and a lock call. *)
Theorem empty_rule_set_removes_approved_item :
  let self := init "pics" (mkListing [approved_item] None) [] true in
  previously_approved self approved_item = true ∧
  (scan self).1 = (1, 0) ∧
  items_to_reapprove (scan self).2 = [] ∧
  items_to_remove (scan self).2 = [approved_item] ∧
  issued (reapprove_found obliging (scan self).2).2 = [] ∧
  issued (remove_found obliging (scan self).2).2 =
    [Remove approved_item; Lock approved_item].
Proof. vm_compute. split_and!; reflexivity. Qed.

(** C10.  When the listing raises after it has yielded some items,
    [scan] returns [(0, 0)], yet the remove bucket and the reapprove
    bucket keep, after what they held before the scan, every yielded
    item the loop classified for them.  [remove_found] and
    [reapprove_found] called afterwards work through these buckets:
    every item of a bucket gets its remove call (and, that call
    returning, its lock call), respectively its approve call, unless an
    uncaught exception of [remove()], respectively [approve()], on an
    item before it has ended the loop. *)
Theorem failed_scan_keeps_buckets self e :
  raises (listing self) = Some e →
  let self' := (scan self).2 in
  (scan self).1 = (0, 0) ∧
  items_to_remove self' =
    items_to_remove self ++ List.filter (verdict self) (yielded (listing self)) ∧
  items_to_reapprove self' =
    items_to_reapprove self ++ List.filter (reapproved self) (yielded (listing self)) ∧
  (∀ remote front item back,
     items_to_remove self' = front ++ item :: back →
     (∀ y, y ∈ front → remove_raises remote y = None) →
     Remove item ∈ issued (remove_found remote self').2 ∧
     (remove_raises remote item = None →
      Lock item ∈ issued (remove_found remote self').2)) ∧
  (∀ remote front item back,
     items_to_reapprove self' = front ++ item :: back →
     (∀ y, y ∈ front → approve_raises remote y = None) →
     Approve item ∈ issued (reapprove_found remote self').2).
Proof.
  intros He self'.
  destruct (scan_buckets self) as [Hrm Hra].
  destruct (foldl_scan_item (yielded (listing self)) self) as (_ & _ & Hrm' & Hra').
  split_and!.
  - unfold scan. rewrite He. by destruct e.
  - subst self'. by rewrite Hrm, Hrm'.
  - subst self'. by rewrite Hra, Hra'.
  - intros remote front item back Hbucket Hok. unfold remove_found.
    rewrite Hbucket. by apply remove_loop_reaches.
  - intros remote front item back Hbucket Hok. unfold reapprove_found.
    rewrite Hbucket. by apply reapprove_loop_reaches.
Qed.

Lemma failed_scan_keeps_buckets_witness :
  let self :=
    init "pics" (mkListing [spam_item; approved_item; fine_item] (Some OtherException))
      (cli_checks 10 3600) true in
  raises (listing self) = Some OtherException ∧
  (scan self).1 = (0, 0) ∧
  items_to_remove (scan self).2 = [spam_item] ∧
  items_to_reapprove (scan self).2 = [approved_item] ∧
  Remove spam_item ∈ issued (remove_found obliging (scan self).2).2 ∧
  Lock spam_item ∈ issued (remove_found obliging (scan self).2).2 ∧
  Approve approved_item ∈ issued (reapprove_found obliging (scan self).2).2.
Proof.
  intros self. split; [reflexivity|].
  destruct (failed_scan_keeps_buckets self OtherException eq_refl)
    as (Hcount & Hrm & Hra & Hremove & Hreapprove).
  assert (Hrm' : items_to_remove (scan self).2 = [] ++ spam_item :: [])
    by (rewrite Hrm; vm_compute; reflexivity).
  assert (Hra' : items_to_reapprove (scan self).2 = [] ++ approved_item :: [])
    by (rewrite Hra; vm_compute; reflexivity).
  split; [exact Hcount|]. split; [exact Hrm'|]. split; [exact Hra'|].
  destruct (Hremove obliging [] spam_item [] Hrm') as [H1 H2].
  { intros y Hy. by apply elem_of_nil in Hy. }
  split; [exact H1|]. split; [exact (H2 eq_refl)|].
  apply (Hreapprove obliging [] approved_item [] Hra').
  intros y Hy. by apply elem_of_nil in Hy.
Defined.

End ModqueueClaims.

(* ===================================================================== *)
(** ** Facts about the conversation scanner                               *)
(* ===================================================================== *)

Section ModmailFacts.
Import Modmail.

Implicit Types (self : t) (c : Conversation) (cs : list (Check Conversation))
  (s : gmap string Conversation).

(** The check loop adds the conversation to the set exactly when no
    check matches it, and leaves the configuration alone. *)
Lemma for_checks_archive c cs : ∀ self,
  items_to_archive (for_checks c cs self) =
    (if matched cs c then items_to_archive self
     else set_add c (items_to_archive self)) ∧
  checks (for_checks c cs self) = checks self ∧
  listing (for_checks c cs self) = listing self.
Proof.
  induction cs as [|check cs IH]; intros self; simpl; [done|].
  destruct (call check c) as [result message]. simpl.
  destruct result; simpl; [done|]. apply IH.
Qed.

Lemma foldl_scan_conversation state convs : ∀ self aggregated,
  let after := (foldl (scan_conversation state) (self, aggregated) convs).1 in
  items_to_archive after = archive_of (checks self) convs (items_to_archive self) ∧
  checks after = checks self ∧ listing after = listing self.
Proof.
  induction convs as [|c convs IH]; intros self aggregated; simpl; [done|].
  destruct (for_checks_archive c (checks self) self) as (Har & Hcs & Hli).
  destruct (IH (for_checks c (checks self) self)
               (bump (owner_display_name c) state aggregated))
    as (Har' & Hcs' & Hli').
  simpl in *. rewrite Har', Hcs', Hli', Hcs, Har, Hli. done.
Qed.

Lemma archive_of_app cs convs1 convs2 s :
  archive_of cs (convs1 ++ convs2) s = archive_of cs convs2 (archive_of cs convs1 s).
Proof. apply foldl_app. Qed.

Lemma for_states_archive states : ∀ acc : t * Aggregated,
  items_to_archive (for_states states acc).2.1 =
    archive_of (checks acc.1) (pulled (listing acc.1) states) (items_to_archive acc.1).
Proof.
  induction states as [|state states IH]; intros [self aggregated]; simpl; [done|].
  pose proof (foldl_scan_conversation state (yielded (listing self state))
                self aggregated) as (Har & Hcs & Hli).
  destruct (foldl (scan_conversation state) (self, aggregated)
              (yielded (listing self state))) as [self1 aggregated1].
  simpl in *. rewrite archive_of_app.
  destruct (raises (listing self state)); simpl.
  - by rewrite Har.
  - rewrite IH. simpl. rewrite Hcs, Hli, Har. done.
Qed.

Lemma log_counts_archive counts : ∀ self,
  items_to_archive (foldl log_counts self counts) = items_to_archive self.
Proof. induction counts as [|e counts IH]; intros self; simpl; [done|]. by rewrite IH. Qed.

Lemma log_subreddit_archive aggregated : ∀ self,
  items_to_archive (foldl log_subreddit self aggregated) = items_to_archive self.
Proof.
  induction aggregated as [|e aggregated IH]; intros self; simpl; [done|].
  rewrite IH. unfold log_subreddit. by rewrite log_counts_archive.
Qed.

(** The archive set [scan] leaves. *)
Lemma scan_archive self :
  items_to_archive (scan self).2 =
    archive_of (checks self) (pulled (listing self) (states self)) (items_to_archive self).
Proof.
  unfold scan.
  match goal with |- context [for_states (states self) ?acc] =>
    pose proof (for_states_archive (states self) acc) as Har;
    destruct (for_states (states self) acc) as [[count|e] [self1 aggregated]]
  end; simpl in *.
  - rewrite log_subreddit_archive. simpl. exact Har.
  - exact Har.
Qed.

Lemma archive_of_spec cs convs : ∀ s (seen : list Conversation),
  well_keyed cs seen s →
  well_keyed cs (seen ++ convs) (archive_of cs convs s) ∧
  dom (archive_of cs convs s) =
    dom s ∪ list_to_set (conv_id <$> List.filter (λ c, negb (matched cs c)) convs).
Proof.
  induction convs as [|c convs IH]; intros s seen Hs; simpl.
  - rewrite app_nil_r. split; [done|]. by rewrite (right_id_L ∅ (∪)).
  - assert (Hstep : well_keyed cs (seen ++ [c])
                      (if matched cs c then s else set_add c s)).
    { assert (Hold : ∀ k v, s !! k = Some v →
                conv_id v = k ∧ v ∈ seen ++ [c] ∧ matched cs v = false).
      { intros k v Hkv. destruct (Hs k v Hkv) as (? & ? & ?).
        split_and!; [done| |done]. apply elem_of_app. by left. }
      intros k v Hkv. destruct (matched cs c) eqn:Hm; [by apply Hold|].
      unfold set_add in Hkv. destruct (s !! conv_id c) eqn:Hc; [by apply Hold|].
      destruct (decide (conv_id c = k)) as [<-|Hne].
      - rewrite lookup_insert_eq in Hkv. injection Hkv as <-.
        split_and!; [done| |done]. apply elem_of_app. right. constructor.
      - rewrite lookup_insert_ne in Hkv by done. by apply Hold. }
    destruct (IH _ _ Hstep) as [Hwk Hdom].
    rewrite <-app_assoc in Hwk. split; [done|].
    rewrite Hdom. destruct (matched cs c) eqn:Hm; simpl; [done|].
    unfold set_add. destruct (s !! conv_id c) eqn:Hc.
    + apply (elem_of_dom_2 (D:=gset string)) in Hc.
      assert (Hd : {[conv_id c]} ∪ dom s = dom s)
        by (apply subseteq_union_1_L; by apply singleton_subseteq_l).
      by rewrite (assoc_L (∪) (dom s) {[conv_id c]}),
        (comm_L (∪) (dom s) {[conv_id c]}), Hd.
    + rewrite dom_insert_L, (comm_L (∪) {[conv_id c]} (dom s)).
      by rewrite (assoc_L (∪) (dom s) {[conv_id c]}).
Qed.

(** Under [well_keyed], no two elements of the set share an id. *)
Lemma well_keyed_NoDup cs convs s :
  well_keyed cs convs s → NoDup (conv_id <$> (map_to_list s).*2).
Proof.
  intros Hs.
  assert (Heq : conv_id <$> (map_to_list s).*2 = (map_to_list s).*1).
  { assert (Hall : Forall (λ kv, conv_id kv.2 = kv.1) (map_to_list s)).
    { apply Forall_forall. intros [k v] Hkv%elem_of_map_to_list.
      by destruct (Hs k v Hkv). }
    induction Hall as [|[k v] l Hkv _ IH]; csimpl in *; [done|]. by rewrite Hkv, IH. }
  rewrite Heq. apply NoDup_fst_map_to_list.
Qed.

End ModmailFacts.

(* ===================================================================== *)
(** ** The conversation scanner against the specification                 *)
(* ===================================================================== *)

Section ModmailClaims.
Import Modmail Examples.

(** C4.  For every conversation the scan pulls, the check loop adds it
    to the archive set if and only if no check of the rule set matches
    it.  After a scan started on the empty set of [__init__], an id is
    in the set exactly when a pulled conversation with that id was
    matched by no check, every element is such a conversation, and no
    two elements share an id: a conversation met under several states
    is held once. *)
Theorem archive_iff_unmatched listing checks states :
  let self := init listing checks states in
  let convs := pulled listing states in
  (∀ (s : t) c,
     items_to_archive (for_checks c (Modmail.checks s) s) =
       if matched (Modmail.checks s) c then items_to_archive s
       else set_add c (items_to_archive s)) ∧
  (∀ k, k ∈ dom (items_to_archive (scan self).2) ↔
        ∃ c, c ∈ convs ∧ conv_id c = k ∧ matched checks c = false) ∧
  (∀ c, c ∈ elements (scan self).2 → c ∈ convs ∧ matched checks c = false) ∧
  NoDup (conv_id <$> elements (scan self).2) ∧
  (∀ c, set_add c (set_add c (items_to_archive (scan self).2)) =
        set_add c (items_to_archive (scan self).2)).
Proof.
  intros self convs.
  assert (Hempty : well_keyed checks [] (∅ : gmap string Conversation))
    by (intros k v Hkv; by rewrite lookup_empty in Hkv).
  destruct (archive_of_spec checks convs ∅ [] Hempty) as [Hwk Hdom].
  pose proof (scan_archive self) as Hscan. simpl in Hscan. fold convs in Hscan.
  split_and!.
  - intros s c. by destruct (for_checks_archive c (Modmail.checks s) s) as [-> _].
  - intros k. rewrite Hscan, Hdom, dom_empty_L, (left_id_L ∅ (∪)).
    rewrite elem_of_list_to_set, list_elem_of_fmap. split.
    + intros (c & -> & Hc). apply list_elem_of_In, filter_In in Hc as [Hc Hm].
      exists c. split_and!; [by apply list_elem_of_In|done|by apply negb_true_iff].
    + intros (c & Hc & <- & Hm). exists c. split; [done|].
      apply list_elem_of_In, filter_In. split; [by apply list_elem_of_In|].
      by apply negb_true_iff.
  - intros c. unfold elements. rewrite Hscan.
    intros ([k v] & -> & Hkv%elem_of_map_to_list)%list_elem_of_fmap.
    by destruct (Hwk k v Hkv) as (_ & ? & ?).
  - unfold elements. rewrite Hscan. by eapply well_keyed_NoDup.
  - intros c. unfold set_add at 1.
    destruct (set_add c (items_to_archive (scan self).2) !! conv_id c) eqn:Hc; [done|].
    unfold set_add in Hc.
    destruct (items_to_archive (scan self).2 !! conv_id c) eqn:Hc'; [congruence|].
    by rewrite lookup_insert_eq in Hc.
Qed.

(** C9, as amended.  For every conversation with no last moderator
    update, when [ignore_unanswered] is false, [check_unanswered]
    matches with the reason "unanswered" (styled red), and a scanner
    whose rule set holds that check does not add the conversation to
    the archive set. *)
Theorem unanswered_is_not_archived style (c : Conversation) :
  last_mod_update c = None →
  call (check_unanswered style false) c = (true, style "unanswered" "red") ∧
  ∀ self : t,
    check_unanswered style false ∈ checks self →
    items_to_archive (for_checks c (checks self) self) = items_to_archive self.
Proof.
  intros Hnone.
  assert (Hcall : call (check_unanswered style false) c
                  = (true, style "unanswered" "red")).
  { unfold call, check_unanswered. simpl. by rewrite Hnone. }
  split; [done|]. intros self Hin.
  destruct (for_checks_archive c (checks self) self) as [-> _].
  assert (Hm : matched (checks self) c = true).
  { apply existsb_exists. exists (check_unanswered style false).
    split; [by apply list_elem_of_In|]. by rewrite Hcall. }
  by rewrite Hm.
Qed.

Lemma unanswered_is_not_archived_witness :
  let self := init (λ _, mkListing [waiting] None) [check_unanswered ansi_style false] ["new"] in
  last_mod_update waiting = None ∧
  call (check_unanswered ansi_style false) waiting
    = (true, ansi_style "unanswered" "red") ∧
  items_to_archive (for_checks waiting (checks self) self) = items_to_archive self.
Proof.
  intros self. split; [reflexivity|].
  destruct (unanswered_is_not_archived ansi_style waiting eq_refl) as [Hcall Hkeep].
  split; [exact Hcall|]. apply Hkeep. simpl. constructor.
Defined.

(** C9 as stated fails: a conversation with no last user update but
    with a moderator update is not matched by [check_unanswered]
    (the check reads the last moderator update), and a scanner with
    that check alone adds it to the archive set. *)
Lemma unanswered_counterexample :
  let self :=
    init (λ _, mkListing [mod_started] None) [check_unanswered ansi_style false] ["new"] in
  last_user_update mod_started = None ∧
  call (check_unanswered ansi_style false) mod_started = (false, "") ∧
  (scan self).1 = Return 1 ∧
  elements (scan self).2 = [mod_started].
Proof. vm_compute. split_and!; reflexivity. Qed.

(** The item-queue scanner catches an exception of its listing: it
    logs one line, with [error] or [exception], and returns zero
    counts. *)
Lemma modqueue_scan_catches (self : Modqueue.t) e :
  raises (Modqueue.listing self) = Some e →
  (Modqueue.scan self).1 = (0, 0) ∧
  ∃ line,
    Modqueue.logged (Modqueue.scan self).2 =
      Modqueue.logged (foldl Modqueue.scan_item self (yielded (Modqueue.listing self)))
      ++ [line] ∧
    (method line = error ∨ method line = exception) ∧ about line = None.
Proof.
  intros He. unfold Modqueue.scan. rewrite He.
  destruct e; (split; [done|]); eexists; (split; [done|]); simpl; auto.
Qed.

(** The conversation scanner lets an exception of a listing through:
    when the listing of the first state raises, so does [scan], and
    the only lines logged are those of matching checks. *)
Lemma modmail_scan_raises (self : t) state rest e :
  states self = state :: rest →
  raises (listing self state) = Some e →
  (scan self).1 = Raise e.
Proof.
  intros Hst He. unfold scan. rewrite Hst. simpl.
  destruct (foldl (scan_conversation state) (self, []) (yielded (listing self state)))
    as [self1 aggregated] eqn:Hfold.
  pose proof (foldl_scan_conversation state (yielded (listing self state)) self [])
    as (_ & _ & Hli).
  by rewrite He.
Qed.

(** C6 fails on the code for the conversation scanner.  When the
    listing raises on the first pull, be it [Forbidden] or another
    exception, [Modmail.scan] logs nothing and returns no count: the
    exception reaches its caller.  On the same failure [Modqueue.scan]
    logs it and returns [(0, 0)]. *)
Theorem modmail_scan_lets_failure_through :
  let denied := init (λ _, mkListing [] (Some Forbidden))
                  [check_unanswered ansi_style false] ["new"] in
  let broken := init (λ _, mkListing [] (Some OtherException))
                  [check_unanswered ansi_style false] ["new"] in
  (scan denied).1 = Raise Forbidden ∧ logged (scan denied).2 = [] ∧
  (scan broken).1 = Raise OtherException ∧ logged (scan broken).2 = [] ∧
  (Modqueue.scan (Modqueue.init "pics" (mkListing [] (Some Forbidden))
                    (cli_checks 10 3600) true)).1 = (0, 0) ∧
  (Modqueue.scan (Modqueue.init "pics" (mkListing [] (Some OtherException))
                    (cli_checks 10 3600) true)).1 = (0, 0).
Proof. vm_compute. split_and!; reflexivity. Qed.

End ModmailClaims.

(* ===================================================================== *)
(** ** Facts about the ladder classifier                                  *)
(* ===================================================================== *)

Section InactivityFacts.
Import InactivityManager.

Implicit Types (self : t) (buckets : Buckets) (l : Locals).

Lemma appender_id : appender (λ buckets, buckets).
Proof. exists (λ _, []). intros. by rewrite app_nil_r. Qed.

Lemma appender_fire a i mods : appender (fire a i mods).
Proof.
  exists (λ a', if decide (a' = a) then [(i, mods)] else []).
  intros buckets a'. unfold fire. destruct (decide (a' = a)); simpl; [done|].
  by rewrite app_nil_r.
Qed.

Lemma appender_then (f g : Buckets → Buckets) :
  appender f → appender g → appender (λ buckets, g (f buckets)).
Proof.
  intros [F HF] [G HG]. exists (λ a, F a ++ G a).
  intros buckets a. by rewrite HG, HF, app_assoc.
Qed.

Lemma appender_when (c : bool) (f g : Buckets → Buckets) :
  appender f → appender g →
  appender (λ buckets, if c then g (f buckets) else f buckets).
Proof.
  intros Hf Hg. destruct c; [by apply appender_then|done].
Qed.

Lemma appender_ladder i l : appender (ladder i l).
Proof.
  unfold ladder.
  repeat case_match; first [apply appender_fire | apply appender_id].
Qed.

Lemma appender_classify i l : appender (classify i l).
Proof.
  unfold classify. cbv zeta.
  apply appender_when; [|apply appender_fire].
  apply appender_when; [|apply appender_fire].
  apply appender_when; [|apply appender_fire].
  apply appender_when; [|apply appender_fire].
  apply appender_when; [|apply appender_fire].
  apply (appender_then _ (ladder i l)); [|apply appender_ladder].
  apply (appender_when _ _ (fire no_active_mods i [])); [|apply appender_fire].
  apply appender_fire.
Qed.

Lemma set_status_names i p a self :
  me (set_status i p a self) = me self ∧
  display_name <$> subreddits (set_status i p a self) = display_name <$> subreddits self.
Proof.
  split; [done|]. simpl.
  rewrite (list_fmap_alter display_name _ id) by (by apply Forall_forall).
  by apply list_alter_id.
Qed.

(** The roster loop keeps [self.me] and the names of the subreddits. *)
Lemma for_moderators_names rest : ∀ i pos self l,
  me (for_moderators i pos rest self l).1 = me self ∧
  display_name <$> subreddits (for_moderators i pos rest self l).1 =
    display_name <$> subreddits self.
Proof.
  induction rest as [|moderator rest IH]; intros i pos self l; simpl; [done|].
  destruct (String.eqb (name moderator) (me self)); simpl.
  - match goal with |- context [for_moderators i (S pos) rest ?s ?l'] =>
      destruct (IH i (S pos) s l') as [-> ->] end.
    apply (set_status_names i pos (is_active moderator) (log info "" _ self)).
  - destruct (my_position l); apply IH.
Qed.

(** The locals the roster loop ends with depend on the instance only
    through [self.me]. *)
Lemma for_moderators_locals rest : ∀ i pos self1 self2 l,
  me self1 = me self2 →
  (for_moderators i pos rest self1 l).2 = (for_moderators i pos rest self2 l).2.
Proof.
  induction rest as [|moderator rest IH]; intros i pos self1 self2 l Hme; simpl; [done|].
  rewrite Hme. destruct (String.eqb (name moderator) (me self2)); simpl.
  - by apply IH.
  - destruct (my_position l); by apply IH.
Qed.

(** One iteration of the subreddit loop, on two instances with the
    same [me] and two subreddit objects with the same name, appends
    the same entries to the buckets. *)
Lemma scan_subreddit_appends moderators i sub1 sub2 self1 self2 b1 b2 :
  display_name sub1 = display_name sub2 → me self1 = me self2 →
  let r1 := scan_subreddit moderators i sub1 (self1, b1) in
  let r2 := scan_subreddit moderators i sub2 (self2, b2) in
  me r1.1 = me r2.1 ∧
  ∃ added : Attr → list (nat * list Redditor),
    (∀ a, SubredditBucket.bucket (r1.2 a) = SubredditBucket.bucket (b1 a) ++ added a) ∧
    (∀ a, SubredditBucket.bucket (r2.2 a) = SubredditBucket.bucket (b2 a) ++ added a).
Proof.
  intros Hname Hme. unfold scan_subreddit. rewrite Hname.
  set (generator := moderators (display_name sub2)).
  pose proof (for_moderators_locals (yielded generator) i 1 self1 self2 fresh_locals Hme)
    as Hl.
  pose proof (for_moderators_names (yielded generator) i 1 self1 fresh_locals) as [Hm1 _].
  pose proof (for_moderators_names (yielded generator) i 1 self2 fresh_locals) as [Hm2 _].
  destruct (for_moderators i 1 (yielded generator) self1 fresh_locals) as [s1 l1].
  destruct (for_moderators i 1 (yielded generator) self2 fresh_locals) as [s2 l2].
  simpl in *. subst l2.
  destruct (raises generator); simpl.
  - split; [congruence|]. exists (λ _, []). split; intros a; by rewrite app_nil_r.
  - split; [congruence|]. destruct (appender_classify i l1) as [added Hadd].
    exists added. split; intros a; apply Hadd.
Qed.

Lemma scan_subreddit_names moderators i sub self b :
  me (scan_subreddit moderators i sub (self, b)).1 = me self ∧
  display_name <$> subreddits (scan_subreddit moderators i sub (self, b)).1 =
    display_name <$> subreddits self.
Proof.
  unfold scan_subreddit.
  pose proof (for_moderators_names (yielded (moderators (display_name sub))) i 1
                self fresh_locals) as Hn.
  destruct (for_moderators i 1 (yielded (moderators (display_name sub))) self
              fresh_locals) as [s1 l1].
  by destruct (raises (moderators (display_name sub))).
Qed.

Lemma for_subreddits_names moderators rest : ∀ i (acc : t * Buckets),
  me (for_subreddits moderators i rest acc).1 = me acc.1 ∧
  display_name <$> subreddits (for_subreddits moderators i rest acc).1 =
    display_name <$> subreddits acc.1.
Proof.
  induction rest as [|sub rest IH]; intros i [self b]; cbn [for_subreddits]; [done|].
  destruct (IH (S i) (scan_subreddit moderators i sub (self, b))) as [-> ->].
  apply scan_subreddit_names.
Qed.

(** The subreddit loop, run on two instances with the same [me] over
    two lists of subreddit objects with the same names, appends the
    same entries to the buckets. *)
Lemma for_subreddits_appends moderators rest1 : ∀ rest2 i self1 self2 b1 b2,
  display_name <$> rest1 = display_name <$> rest2 → me self1 = me self2 →
  ∃ added : Attr → list (nat * list Redditor),
    (∀ a, SubredditBucket.bucket ((for_subreddits moderators i rest1 (self1, b1)).2 a)
          = SubredditBucket.bucket (b1 a) ++ added a) ∧
    (∀ a, SubredditBucket.bucket ((for_subreddits moderators i rest2 (self2, b2)).2 a)
          = SubredditBucket.bucket (b2 a) ++ added a).
Proof.
  induction rest1 as [|sub1 rest1 IH]; intros [|sub2 rest2] i self1 self2 b1 b2 Hn Hme;
    try discriminate.
  - exists (λ _, []). split; intros a; simpl; by rewrite app_nil_r.
  - injection Hn as Hsub Hrest.
    destruct (scan_subreddit_appends moderators i sub1 sub2 self1 self2 b1 b2 Hsub Hme)
      as (Hme' & X & HX1 & HX2).
    cbn [for_subreddits].
    destruct (scan_subreddit moderators i sub1 (self1, b1)) as [s1 c1].
    destruct (scan_subreddit moderators i sub2 (self2, b2)) as [s2 c2].
    destruct (IH rest2 (S i) s1 s2 c1 c2 Hrest Hme') as (Y & HY1 & HY2).
    exists (λ a, X a ++ Y a). simpl in *.
    split; intros a; [rewrite HY1, HX1|rewrite HY2, HX2]; by rewrite app_assoc.
Qed.

End InactivityFacts.

(* ===================================================================== *)
(** ** The ladder classifier against the specification                    *)
(* ===================================================================== *)

Section InactivityClaims.
Import InactivityManager Examples.

(** C5, as amended.  For a roster made of exactly one entry, the
    active self subject, the classifier adds the community to the
    all-subreddits bucket, to the top-active bucket of the ladder
    (rank 1, active) and to the highest-active-mod bucket (self active,
    nobody above), and to none of: no-active-mods, inactive, the
    inactive-top-N buckets, active-with-inactive-above,
    inactive-with-active-below.  (Nothing is said of the
    only-one-active bucket.) *)
Theorem lone_active_self moderators sub me_name p buckets :
  moderators (display_name sub) = mkListing [mkRedditor me_name true p] None →
  let after := (scan moderators (init [sub] me_name) buckets).2 in
  ∀ a, a ≠ only_one_active →
    SubredditBucket.bucket (after a) =
      SubredditBucket.bucket (buckets a) ++
      (if bool_decide (a ∈ [all_subreddits; active_top_mod; top_active_mod])
       then [(0, [])] else []).
Proof.
  intros Hroster after a Ha. subst after.
  unfold scan. cbn [init subreddits for_subreddits]. unfold scan_subreddit.
  rewrite Hroster. cbn [yielded raises for_moderators name is_active me log].
  rewrite String.eqb_refl. cbn.
  destruct a; try done; cbn; by rewrite ?app_nil_r.
Qed.

Lemma lone_active_self_witness :
  let after := (scan alone classifier class_body).2 in
  alone "pics" = mkListing [mkRedditor "me" true None] None ∧
  ∀ a, a ≠ only_one_active →
    SubredditBucket.bucket (after a) =
      SubredditBucket.bucket (class_body a) ++
      (if bool_decide (a ∈ [all_subreddits; active_top_mod; top_active_mod])
       then [(0, [])] else []).
Proof.
  split; [reflexivity|].
  apply (lone_active_self alone (mkSubreddit "pics" None None) "me" None class_body).
  reflexivity.
Defined.

(** C5 as stated fails: for the roster made of the active self subject
    alone, the only-one-active bucket stays empty (the self entry is
    itself part of [below_me], which is therefore never all inactive),
    and the highest-active-mod bucket, which the claim does not list,
    receives the community. *)
Lemma lone_active_self_counterexample :
  let after := (scan alone classifier class_body).2 in
  SubredditBucket.bucket (after only_one_active) = [] ∧
  SubredditBucket.bucket (after top_active_mod) = [(0, [])] ∧
  SubredditBucket.bucket (after all_subreddits) = [(0, [])] ∧
  SubredditBucket.bucket (after active_top_mod) = [(0, [])] ∧
  SubredditBucket.bucket (after no_active_mods) = [].
Proof. vm_compute. split_and!; reflexivity. Qed.

(** C7, as amended.  Running [scan] twice over unchanged rosters
    appends to every bucket, the second time, the same entries as the
    first time: the buckets are never reset, so a bucket is the same
    after the second run as after the first only if the first run
    added nothing to it, and a bucket that was empty before the first
    run holds, after the second, the entries of the first run twice. *)
Theorem second_scan_appends_again moderators (self : t) buckets :
  let first := scan moderators self buckets in
  let second := scan moderators first.1 first.2 in
  ∀ a, ∃ added,
    SubredditBucket.bucket (first.2 a) = SubredditBucket.bucket (buckets a) ++ added ∧
    SubredditBucket.bucket (second.2 a) = SubredditBucket.bucket (first.2 a) ++ added ∧
    (SubredditBucket.bucket (second.2 a) = SubredditBucket.bucket (first.2 a)
     ↔ added = []) ∧
    (SubredditBucket.bucket (buckets a) = [] →
     SubredditBucket.bucket (second.2 a) =
       SubredditBucket.bucket (first.2 a) ++ SubredditBucket.bucket (first.2 a)).
Proof.
  intros first second a.
  destruct (for_subreddits_names moderators (subreddits self) 0 (self, buckets))
    as [Hme Hnames].
  fold (scan moderators self buckets) in Hme, Hnames. fold first in Hme, Hnames.
  destruct (for_subreddits_appends moderators (subreddits self) (subreddits first.1)
              0 self first.1 buckets first.2 (eq_sym Hnames) (eq_sym Hme))
    as (added & H1 & H2).
  exists (added a). split_and!.
  - apply H1.
  - apply H2.
  - unfold second, scan. rewrite H2. split.
    + intros Heq. apply (app_inv_head (SubredditBucket.bucket (first.2 a))).
      by rewrite app_nil_r.
    + intros ->. by rewrite app_nil_r.
  - intros Hempty. unfold second, scan. rewrite H2. f_equal.
    unfold first, scan. by rewrite H1, Hempty.
Qed.

(** C7 as stated fails: after one run over the roster of the active
    self subject alone the all-subreddits bucket holds the community
    once, after the second run twice. *)
Lemma second_scan_counterexample :
  let first := scan alone classifier class_body in
  let second := scan alone first.1 first.2 in
  SubredditBucket.bucket (first.2 all_subreddits) = [(0, [])] ∧
  SubredditBucket.bucket (second.2 all_subreddits) = [(0, []); (0, [])] ∧
  SubredditBucket.bucket (second.2 all_subreddits)
    ≠ SubredditBucket.bucket (first.2 all_subreddits).
Proof. vm_compute. split_and!; done. Qed.

End InactivityClaims.

(* ===================================================================== *)
(** ** Further properties of the item-queue scanner                       *)
(* ===================================================================== *)

Section ModqueueMore.
Import Modqueue.

Implicit Types (self : t) (item : Item).

Lemma scan_item_frame self item :
  issued (scan_item self item) = issued self ∧
  listing (scan_item self item) = listing self ∧
  subreddit (scan_item self item) = subreddit self.
Proof.
  unfold scan_item.
  pose proof (for_checks_frame item (checks self) 0 self true []) as Hf.
  destruct (for_checks item 0 (checks self) self true []) as [[self' remove] messages].
  simpl in Hf. destruct Hf as (_ & _ & Hli & Hsub & _ & Hiss).
  by destruct remove.
Qed.

Lemma foldl_scan_item_frame items : ∀ self,
  issued (foldl scan_item self items) = issued self ∧
  listing (foldl scan_item self items) = listing self ∧
  subreddit (foldl scan_item self items) = subreddit self.
Proof.
  induction items as [|item items IH]; intros self; simpl; [done|].
  destruct (IH (scan_item self item)) as (-> & -> & ->).
  apply scan_item_frame.
Qed.

(** An item is never classified for both buckets. *)
Lemma verdict_excludes_reapproved self item :
  reapproved self item = true → verdict self item = false.
Proof.
  unfold reapproved, verdict. intros [Hyes Hne]%andb_true_iff.
  destruct (checks self) as [|c cs]; [done|].
  by rewrite for_checks_bypass.
Qed.

Lemma filter_exclusive_length {A} (p q : A → bool) (l : list A) :
  (∀ x, q x = true → p x = false) →
  (length (List.filter p l) + length (List.filter q l) ≤ length l)%nat.
Proof.
  intros Hpq. induction l as [|x l IH]; simpl; [done|].
  destruct (q x) eqn:Hq.
  - rewrite (Hpq x Hq). simpl. lia.
  - destruct (p x); simpl; lia.
Qed.

(** X1.  When the listing does not raise, [scan] returns the sizes of
    the two buckets as it leaves them: what they held before the scan
    plus the numbers of yielded items classified for removal and for
    reapproval; the scanner's configuration is unchanged and no
    moderation call has been sent. *)
Theorem scan_counts_are_bucket_sizes self :
  raises (listing self) = None →
  let self' := (scan self).2 in
  (scan self).1 = (length (items_to_remove self'), length (items_to_reapprove self')) ∧
  length (items_to_remove self') =
    length (items_to_remove self)
    + length (List.filter (verdict self) (yielded (listing self))) ∧
  length (items_to_reapprove self') =
    length (items_to_reapprove self)
    + length (List.filter (reapproved self) (yielded (listing self))) ∧
  issued self' = issued self.
Proof.
  intros Hok self'.
  destruct (scan_buckets self) as [Hrm Hra].
  destruct (foldl_scan_item (yielded (listing self)) self) as (_ & _ & Hrm' & Hra').
  destruct (foldl_scan_item_frame (yielded (listing self)) self) as (Hiss & _ & _).
  fold self' in Hrm, Hra. split_and!.
  - subst self'. unfold scan. rewrite Hok. done.
  - by rewrite Hrm, Hrm', length_app.
  - by rewrite Hra, Hra', length_app.
  - subst self'. unfold scan. rewrite Hok. simpl. exact Hiss.
Qed.

Lemma scan_counts_are_bucket_sizes_witness :
  let self :=
    init "pics" (mkListing [Examples.spam_item; Examples.approved_item; Examples.fine_item] None)
      (Examples.cli_checks 10 3600) true in
  raises (listing self) = None ∧
  (scan self).1 = (1, 1) ∧
  items_to_remove (scan self).2 = [Examples.spam_item] ∧
  items_to_reapprove (scan self).2 = [Examples.approved_item].
Proof.
  intros self. split; [reflexivity|].
  destruct (scan_counts_are_bucket_sizes self eq_refl) as (Hcount & _).
  split; [rewrite Hcount|]; vm_compute; done.
Defined.

(** X2.  A scan started on a fresh scanner puts no item in both
    buckets, keeps in each bucket the order of the listing, and holds in
    the two buckets together at most as many items as the listing
    yielded: an item that is neither reapproved nor matched is dropped. *)
Theorem scan_routes_each_item_once subreddit source rules reapprove_previously_approved :
  let self := init subreddit source rules reapprove_previously_approved in
  let self' := (scan self).2 in
  items_to_remove self' = List.filter (verdict self) (yielded source) ∧
  items_to_reapprove self' = List.filter (reapproved self) (yielded source) ∧
  (∀ item, item ∈ items_to_remove self' → item ∉ items_to_reapprove self') ∧
  (length (items_to_remove self') + length (items_to_reapprove self')
   ≤ length (yielded source))%nat.
Proof.
  intros self self'.
  destruct (scan_buckets self) as [Hrm Hra].
  destruct (foldl_scan_item (yielded (listing self)) self) as (_ & _ & Hrm' & Hra').
  fold self' in Hrm, Hra. rewrite Hrm' in Hrm. rewrite Hra' in Hra. simpl in Hrm, Hra.
  split_and!; [done|done| |].
  - rewrite Hrm, Hra. intros item [_ Hv]%list_elem_of_In%filter_In
      [_ Hr]%list_elem_of_In%filter_In.
    apply verdict_excludes_reapproved in Hr. congruence.
  - rewrite Hrm, Hra. apply filter_exclusive_length.
    apply verdict_excludes_reapproved.
Qed.

Lemma remove_loop_buckets remote items : ∀ self,
  items_to_remove (remove_loop remote items self).2 = items_to_remove self ∧
  items_to_reapprove (remove_loop remote items self).2 = items_to_reapprove self.
Proof.
  induction items as [|item items IH]; intros self; simpl; [done|].
  destruct (remove_raises remote item); simpl; [done|].
  destruct (lock_raises remote item);
    match goal with |- context [remove_loop remote items ?s] =>
      destruct (IH s) as [-> ->] end; done.
Qed.

Lemma reapprove_loop_buckets remote items : ∀ self,
  items_to_remove (reapprove_loop remote items self).2 = items_to_remove self ∧
  items_to_reapprove (reapprove_loop remote items self).2 = items_to_reapprove self.
Proof.
  induction items as [|item items IH]; intros self; simpl; [done|].
  destruct (approve_raises remote item); simpl; [done|].
  match goal with |- context [reapprove_loop remote items ?s] =>
    destruct (IH s) as [-> ->] end; done.
Qed.

Lemma remove_loop_lock_logs remote items : ∀ self,
  (∀ item, item ∈ items → remove_raises remote item = None) →
  logged_count error "Failed to lock" (logged (remove_loop remote items self).2) =
    logged_count error "Failed to lock" (logged self)
    + length (List.filter (λ item, bool_decide (lock_raises remote item ≠ None)) items) ∧
  logged_count info "Locked" (logged (remove_loop remote items self).2) =
    logged_count info "Locked" (logged self)
    + length (List.filter (λ item, bool_decide (lock_raises remote item = None)) items).
Proof.
  unfold logged_count.
  induction items as [|item items IH]; intros self Hok; simpl; [lia|].
  rewrite (Hok item) by left.
  assert (Hrest : ∀ x, x ∈ items → remove_raises remote x = None)
    by (intros x Hx; apply Hok; by right).
  destruct (lock_raises remote item) eqn:Hlock; simpl;
    match goal with |- context [remove_loop remote items ?s] =>
      destruct (IH s Hrest) as [-> ->] end;
    simpl; rewrite !List.filter_app, !length_app; simpl; lia.
Qed.

(** X3.  When no [remove()] raises, [remove_found] returns normally and
    has sent, for every item of the remove bucket in order, a remove
    call followed by a lock call: a [lock()] that raises does not stop
    the loop.  It logs "Failed to lock" once per item whose lock raised
    and "Locked" once per item whose lock succeeded. *)
Theorem remove_found_survives_lock_failures remote self :
  (∀ item, item ∈ items_to_remove self → remove_raises remote item = None) →
  (remove_found remote self).1 = Return () ∧
  issued (remove_found remote self).2 =
    issued self ++ (items_to_remove self ≫= λ item, [Remove item; Lock item]) ∧
  logged_count error "Failed to lock" (logged (remove_found remote self).2) =
    logged_count error "Failed to lock" (logged self)
    + length (List.filter (λ item, bool_decide (lock_raises remote item ≠ None))
                (items_to_remove self)) ∧
  logged_count info "Locked" (logged (remove_found remote self).2) =
    logged_count info "Locked" (logged self)
    + length (List.filter (λ item, bool_decide (lock_raises remote item = None))
                (items_to_remove self)).
Proof.
  intros Hok. unfold remove_found.
  destruct (remove_loop_issued remote (items_to_remove self) self Hok) as [-> ->].
  destruct (remove_loop_lock_logs remote (items_to_remove self) self Hok) as [-> ->].
  done.
Qed.

Lemma remove_found_survives_lock_failures_witness :
  let self :=
    (scan (init "pics" (mkListing [Examples.spam_item] None)
             (Examples.cli_checks 10 3600) true)).2 in
  (∀ item, item ∈ items_to_remove self → remove_raises Examples.unlockable item = None) ∧
  (remove_found Examples.unlockable self).1 = Return () ∧
  issued (remove_found Examples.unlockable self).2 =
    [Remove Examples.spam_item; Lock Examples.spam_item] ∧
  logged_count error "Failed to lock" (logged (remove_found Examples.unlockable self).2) = 1.
Proof.
  intros self.
  assert (Hok : ∀ item, item ∈ items_to_remove self → remove_raises Examples.unlockable item = None)
    by done.
  split; [exact Hok|].
  destruct (remove_found_survives_lock_failures Examples.unlockable self Hok)
    as (Hret & Hiss & Herr & _).
  split; [exact Hret|]. split; [rewrite Hiss|rewrite Herr]; vm_compute; reflexivity.
Defined.

(** X4.  [remove_found] does not catch an exception of [remove()]: at
    the first item of the remove bucket whose remove call raises, it
    raises that exception, having sent the remove and lock calls of the
    items before and the failed remove call, and nothing for the items
    after. *)
Theorem remove_found_stops_at_failed_remove remote self front item back e :
  items_to_remove self = front ++ item :: back →
  (∀ y, y ∈ front → remove_raises remote y = None) →
  remove_raises remote item = Some e →
  (remove_found remote self).1 = Raise e ∧
  issued (remove_found remote self).2 =
    issued self ++ (front ≫= λ y, [Remove y; Lock y]) ++ [Remove item].
Proof.
  intros Hbucket Hok Hbad. unfold remove_found. rewrite Hbucket. clear Hbucket.
  revert self. induction front as [|y front IH]; intros self.
  - simpl. rewrite Hbad. done.
  - cbn [app remove_loop]. rewrite (Hok y) by left.
    assert (Hrest : ∀ z, z ∈ front → remove_raises remote z = None)
      by (intros z Hz; apply Hok; by right).
    destruct (lock_raises remote y);
      match goal with |- context [remove_loop remote _ ?s] =>
        destruct (IH Hrest s) as [-> ->] end;
      simpl; by rewrite <-!app_assoc.
Qed.

Lemma remove_found_stops_at_failed_remove_witness :
  let self :=
    (scan (init "pics" (mkListing [Examples.spam_item; Examples.spam_item] None)
             (Examples.cli_checks 10 3600) true)).2 in
  items_to_remove self = [] ++ Examples.spam_item :: [Examples.spam_item] ∧
  (remove_found Examples.unremovable self).1 = Raise Forbidden ∧
  issued (remove_found Examples.unremovable self).2 = [Remove Examples.spam_item].
Proof.
  intros self.
  assert (Hbucket : items_to_remove self = [] ++ Examples.spam_item :: [Examples.spam_item])
    by (vm_compute; reflexivity).
  split; [exact Hbucket|].
  destruct (remove_found_stops_at_failed_remove Examples.unremovable self [] Examples.spam_item
              [Examples.spam_item] Forbidden Hbucket) as [Hret Hiss];
    [intros y Hy; by apply elem_of_nil in Hy|reflexivity|].
  split; [exact Hret|]. rewrite Hiss. vm_compute. reflexivity.
Defined.

(** X5.  Neither action method empties its bucket: called twice on a
    platform where no call raises, [remove_found] sends the remove and
    lock calls of every item twice, and [reapprove_found] the approve
    calls twice. *)
Theorem actions_are_sent_again remote self :
  (∀ item, remove_raises remote item = None) →
  (∀ item, approve_raises remote item = None) →
  let removals := items_to_remove self ≫= λ item, [Remove item; Lock item] in
  let approvals := Approve <$> items_to_reapprove self in
  items_to_remove (remove_found remote self).2 = items_to_remove self ∧
  items_to_reapprove (reapprove_found remote self).2 = items_to_reapprove self ∧
  issued (remove_found remote (remove_found remote self).2).2 =
    issued self ++ removals ++ removals ∧
  issued (reapprove_found remote (reapprove_found remote self).2).2 =
    issued self ++ approvals ++ approvals.
Proof.
  intros Hrm Hap removals approvals.
  destruct (remove_loop_buckets remote (items_to_remove self) self) as [Hb1 _].
  destruct (reapprove_loop_buckets remote (items_to_reapprove self) self) as [_ Hb2].
  fold (remove_found remote self) in Hb1. fold (reapprove_found remote self) in Hb2.
  split_and!; [done|done| |].
  - unfold remove_found at 1. rewrite Hb1.
    destruct (remove_loop_issued remote (items_to_remove self) (remove_found remote self).2)
      as [_ ->]; [done|].
    unfold remove_found.
    destruct (remove_loop_issued remote (items_to_remove self) self) as [_ ->]; [done|].
    by rewrite <-app_assoc.
  - unfold reapprove_found at 1. rewrite Hb2.
    destruct (reapprove_loop_issued remote (items_to_reapprove self)
                (reapprove_found remote self).2) as [_ ->]; [done|].
    unfold reapprove_found.
    destruct (reapprove_loop_issued remote (items_to_reapprove self) self) as [_ ->];
      [done|].
    by rewrite <-app_assoc.
Qed.

Lemma actions_are_sent_again_witness :
  let self :=
    (scan (init "pics" (mkListing [Examples.spam_item; Examples.approved_item] None)
             (Examples.cli_checks 10 3600) true)).2 in
  (∀ item, remove_raises Examples.obliging item = None) ∧
  (∀ item, approve_raises Examples.obliging item = None) ∧
  issued (remove_found Examples.obliging (remove_found Examples.obliging self).2).2 =
    [Remove Examples.spam_item; Lock Examples.spam_item;
     Remove Examples.spam_item; Lock Examples.spam_item] ∧
  issued (reapprove_found Examples.obliging (reapprove_found Examples.obliging self).2).2 =
    [Approve Examples.approved_item; Approve Examples.approved_item].
Proof.
  intros self. split; [done|]. split; [done|].
  destruct (actions_are_sent_again Examples.obliging self (λ _, eq_refl) (λ _, eq_refl))
    as (_ & _ & H1 & H2).
  split; [rewrite H1|rewrite H2]; vm_compute; reflexivity.
Defined.

(** X27.  [reapprove_found] catches nothing: at the first item of the
    reapprove bucket whose approve call raises, it raises that
    exception, having sent the approve calls of the items before and the
    failed one and logged "Re-approved" for the items before only;
    the items after get no call. *)
Theorem reapprove_found_stops_at_failed_approve remote self front item back e :
  items_to_reapprove self = front ++ item :: back →
  (∀ y, y ∈ front → approve_raises remote y = None) →
  approve_raises remote item = Some e →
  (reapprove_found remote self).1 = Raise e ∧
  issued (reapprove_found remote self).2 =
    issued self ++ (Approve <$> front) ++ [Approve item] ∧
  logged_count info "Re-approved" (logged (reapprove_found remote self).2) =
    logged_count info "Re-approved" (logged self) + length front.
Proof.
  intros Hbucket Hok Hbad. unfold reapprove_found. rewrite Hbucket. clear Hbucket.
  revert self. induction front as [|y front IH]; intros self.
  - simpl. rewrite Hbad. simpl. by rewrite Nat.add_0_r.
  - cbn [app reapprove_loop]. rewrite (Hok y) by left.
    assert (Hrest : ∀ z, z ∈ front → approve_raises remote z = None)
      by (intros z Hz; apply Hok; by right).
    match goal with |- context [reapprove_loop remote _ ?s] =>
      destruct (IH Hrest s) as (-> & -> & ->) end.
    split; [done|]. split; [simpl; by rewrite <-!app_assoc|].
    unfold logged_count. simpl. rewrite List.filter_app, length_app. simpl. lia.
Qed.

Lemma reapprove_found_stops_at_failed_approve_witness :
  let self :=
    (scan (init "pics"
             (mkListing [Examples.approved_item; Examples.approved_spam_item;
                         Examples.approved_item] None)
             (Examples.cli_checks 10 3600) true)).2 in
  items_to_reapprove self =
    [Examples.approved_item] ++ Examples.approved_spam_item :: [Examples.approved_item] ∧
  (reapprove_found Examples.keeps_spam_removed self).1 = Raise Forbidden ∧
  issued (reapprove_found Examples.keeps_spam_removed self).2 =
    [Approve Examples.approved_item; Approve Examples.approved_spam_item].
Proof.
  intros self.
  assert (Hbucket : items_to_reapprove self =
            [Examples.approved_item] ++ Examples.approved_spam_item
              :: [Examples.approved_item])
    by (vm_compute; reflexivity).
  split; [exact Hbucket|].
  destruct (reapprove_found_stops_at_failed_approve Examples.keeps_spam_removed self
              [Examples.approved_item] Examples.approved_spam_item
              [Examples.approved_item] Forbidden Hbucket) as (Hret & Hiss & _);
    [intros y [->|Hy%elem_of_nil]%elem_of_cons; [reflexivity|done]|reflexivity|].
  split; [exact Hret|]. rewrite Hiss. vm_compute. reflexivity.
Defined.

End ModqueueMore.

(* ===================================================================== *)
(** ** Properties of the shipped checks and of the commands               *)
(* ===================================================================== *)

Section ChecksMore.
Import Modqueue.

Lemma check_removed_by_automated_spam_verdict style item :
  (call (check_removed_by_automated_spam style) item).1 = spam_flagged item.
Proof.
  unfold call, check_removed_by_automated_spam, spam_flagged. simpl.
  destruct (banned_by item); simpl; repeat case_bool_decide; simpl; done.
Qed.

(** X6.  [check_removed_by_automated_spam] matches exactly the items
    whose [removed_by_category] is "reddit" or whose [banned_by] is the
    literal [True] with the ban note "spam"; an item a moderator banned
    with that note is not matched on that account. *)
Theorem automated_spam_characterised style item :
  ((call (check_removed_by_automated_spam style) item).1 = true ↔
     removed_by_category item = Some "reddit"
     ∨ (banned_by item = BannedTrue ∧ ban_note item = Some "spam")) ∧
  (∀ moderator,
     banned_by item = BannedByMod moderator →
     removed_by_category item ≠ Some "reddit" →
     call (check_removed_by_automated_spam style) item = (false, "")).
Proof.
  split.
  - rewrite check_removed_by_automated_spam_verdict. unfold spam_flagged.
    rewrite orb_true_iff, andb_true_iff, !bool_decide_eq_true. done.
  - intros moderator Hmod Hcat.
    unfold call, check_removed_by_automated_spam. simpl. rewrite Hmod. simpl.
    by rewrite bool_decide_eq_false_2.
Qed.

(** X7.  Every shipped check returns the empty message when it does not
    match, so that only matching checks contribute to the message
    [scan] records. *)
Theorem unmatched_check_has_no_message now style human_timedelta fromisoformat :
  (∀ min_score item,
     (call (check_score style min_score) item).1 = false →
     (call (check_score style min_score) item).2 = "") ∧
  (∀ min_age item,
     (call (check_age now style human_timedelta min_age) item).1 = false →
     (call (check_age now style human_timedelta min_age) item).2 = "") ∧
  (∀ item,
     (call (check_removed_by_automated_spam style) item).1 = false →
     (call (check_removed_by_automated_spam style) item).2 = "") ∧
  (∀ ignore conversation,
     (call (check_unanswered style ignore) conversation).1 = false →
     (call (check_unanswered style ignore) conversation).2 = "") ∧
  (∀ ignore conversation message,
     check_pending_response style fromisoformat ignore conversation
       = Return (false, message) →
     message = "").
Proof.
  split_and!.
  - intros min_score item. unfold call, check_score. simpl. by intros ->.
  - intros min_age item. unfold call, check_age. simpl. by intros ->.
  - intros item. unfold call, check_removed_by_automated_spam. simpl. by intros ->.
  - intros ignore conversation. unfold call, check_unanswered. simpl.
    destruct ignore; simpl; [done|]. by intros ->.
  - intros ignore conversation message. unfold check_pending_response.
    destruct (ignore || bool_decide (last_user_update conversation = None)).
    + by intros [= <-].
    + destruct (last_mod_update conversation); [|done].
      destruct (last_user_update conversation); [|done].
      destruct (_ <? _)%Z; [done|]. by intros [= <-].
Qed.

(** [check_pending_response] returns without matching when it is told
    to ignore pending responses or the user never wrote; otherwise it
    raises when there is no moderator update, and else matches exactly
    when the last moderator update is earlier than the last user
    update. *)
Lemma pending_response_behaviour style fromisoformat ignore conversation :
  (ignore = true ∨ last_user_update conversation = None →
   check_pending_response style fromisoformat ignore conversation = Return (false, "")) ∧
  (ignore = false → last_user_update conversation ≠ None →
   last_mod_update conversation = None →
   check_pending_response style fromisoformat ignore conversation = Raise OtherException) ∧
  (∀ mod_update user_update,
     ignore = false →
     last_mod_update conversation = Some mod_update →
     last_user_update conversation = Some user_update →
     check_pending_response style fromisoformat ignore conversation =
       if (fromisoformat mod_update <? fromisoformat user_update)%Z
       then Return (true, style "needs mod response" "red")
       else Return (false, "")).
Proof.
  unfold check_pending_response. split_and!.
  - intros [-> | ->]; [done|]. by rewrite orb_true_r.
  - intros -> Huser ->. simpl. by rewrite bool_decide_eq_false_2.
  - intros mod_update user_update -> -> ->. simpl. by destruct (_ <? _)%Z.
Qed.

End ChecksMore.

Section CliMore.
Import Modqueue.

Variable now : Z.
Variable style : string → string → string.
Variable human_timedelta : Z → bool → string.

(** X8.  On the rule set of the [modqueue] command, an item to which the
    reapproval bypass does not apply is classified for removal exactly
    when the spam filter flagged it, or its score is below [min_score]
    and its age is at least [min_age]; a previously approved item, with
    reapproval enabled, is never classified for removal and always for
    reapproval. *)
Theorem cli_rule_set_verdict min_score min_age self item :
  checks self = Cli.modqueue_checks now style human_timedelta min_score min_age →
  (previously_approved self item = false →
   verdict self item =
     spam_flagged item
     || ((score item <? min_score)%Z && (min_age <=? now - created_utc item)%Z)) ∧
  (previously_approved self item = true →
   verdict self item = false ∧ reapproved self item = true).
Proof.
  intros Hcs. split.
  - intros Hno. unfold verdict. rewrite Hcs.
    pose proof (check_removed_by_automated_spam_verdict style item) as Hspam.
    destruct (spam_flagged item) eqn:Hflag.
    + destruct (for_checks_any item
                  [check_score style min_score;
                   check_age now style human_timedelta min_age]
                  (check_removed_by_automated_spam style) [] self Hno)
        as (self' & Heq & _).
      * unfold any_hit. simpl. by rewrite !andb_false_r.
      * unfold any_hit. by rewrite Hspam.
      * unfold Cli.modqueue_checks. simpl app in Heq. by rewrite Heq.
    + destruct (for_checks_all item
                  (Cli.modqueue_checks now style human_timedelta min_score min_age)
                  self Hno) as (self' & Heq & _).
      * unfold any_hit, Cli.modqueue_checks. cbn [forallb]. rewrite Hspam.
        simpl. by rewrite !andb_false_r.
      * rewrite Heq. unfold all_verdicts, Cli.modqueue_checks. simpl.
        by rewrite !andb_true_r.
  - intros Hyes. split.
    + apply verdict_excludes_reapproved. unfold reapproved. by rewrite Hyes, Hcs.
    + unfold reapproved. by rewrite Hyes, Hcs.
Qed.

End CliMore.

Lemma cli_rule_set_verdict_witness :
  let self :=
    Modqueue.init "pics" (mkListing [] None)
      (Cli.modqueue_checks Examples.clock ansi_style Examples.span 10 3600) true in
  Modqueue.checks self
    = Cli.modqueue_checks Examples.clock ansi_style Examples.span 10 3600 ∧
  Modqueue.previously_approved self Examples.spam_item = false ∧
  Modqueue.verdict self Examples.spam_item = true ∧
  Modqueue.previously_approved self Examples.approved_spam_item = true ∧
  Modqueue.verdict self Examples.approved_spam_item = false ∧
  Modqueue.verdict self Examples.fine_item = false.
Proof.
  intros self. split; [reflexivity|]. split; [reflexivity|].
  destruct (cli_rule_set_verdict Examples.clock ansi_style Examples.span 10 3600 self
              Examples.spam_item eq_refl) as [Hspam _].
  destruct (cli_rule_set_verdict Examples.clock ansi_style Examples.span 10 3600 self
              Examples.approved_spam_item eq_refl) as [_ Happroved].
  destruct (cli_rule_set_verdict Examples.clock ansi_style Examples.span 10 3600 self
              Examples.fine_item eq_refl) as [Hfine _].
  split; [by rewrite Hspam|]. split; [reflexivity|].
  split; [by apply Happroved|]. by rewrite Hfine.
Defined.

Section CliCommands.
Import Modqueue.

Variable now : Z.
Variable style : string → string → string.
Variable human_timedelta : Z → bool → string.

Lemma scan_result self :
  issued (scan self).2 = issued self ∧
  ((scan self).1 = (0, 0) ∨
   (scan self).1 =
     (length (items_to_remove (scan self).2), length (items_to_reapprove (scan self).2))) ∧
  (raises (listing self) ≠ None → (scan self).1 = (0, 0)) ∧
  (raises (listing self) = None →
   (scan self).1 =
     (length (items_to_remove (scan self).2), length (items_to_reapprove (scan self).2))).
Proof.
  destruct (foldl_scan_item_frame (yielded (listing self)) self) as (Hiss & _ & _).
  unfold scan. destruct (raises (listing self)) as [[]|]; simpl; split_and!; auto; done.
Qed.

Lemma failed_scan_buckets self e :
  raises (listing self) = Some e →
  (scan self).1 = (0, 0) ∧
  items_to_remove (scan self).2 =
    items_to_remove self ++ List.filter (verdict self) (yielded (listing self)) ∧
  items_to_reapprove (scan self).2 =
    items_to_reapprove self ++ List.filter (reapproved self) (yielded (listing self)).
Proof.
  intros He.
  destruct (scan_buckets self) as [-> ->].
  destruct (foldl_scan_item (yielded (listing self)) self) as (_ & _ & -> & ->).
  split; [|done]. unfold scan. rewrite He. by destruct e.
Qed.

(** X9.  In a dry run the [modqueue] command scans every subreddit and
    sends no moderation call at all, whatever the scans find and
    whatever the platform would answer. *)
Theorem modqueue_dry_run_sends_nothing remote min_score min_age reapprove_flag subreddits :
  let result :=
    Cli.modqueue now style human_timedelta true remote min_score min_age reapprove_flag
      subreddits in
  result.1 = Return () ∧
  length result.2 = length subreddits ∧
  Forall (λ scanner, issued scanner = []) result.2.
Proof.
  induction subreddits as [|subreddit rest IH]; simpl; [done|].
  unfold Cli.modqueue_subreddit. simpl.
  match goal with |- context [scan ?s] =>
    pose proof (scan_result s) as (Hiss & _); destruct (scan s) as [[n m] scanner] end.
  simpl in *.
  destruct (Cli.modqueue now style human_timedelta true remote min_score min_age
              reapprove_flag rest) as [outcome scanners].
  simpl in *. destruct IH as (-> & -> & Hall). split_and!; [done|done|].
  by constructor.
Qed.

(** X10.  When the listing of a subreddit raises, the [modqueue] command
    sends no moderation call for that subreddit, dry run or not, even
    though the scanner's buckets hold the items classified before the
    failure: the counts [scan] returned are zero and gate both action
    methods. *)
Theorem modqueue_command_skips_failed_scan dry_run remote min_score min_age
    reapprove_flag subreddit e :
  raises subreddit.2 = Some e →
  let result :=
    Cli.modqueue_subreddit now style human_timedelta dry_run remote min_score min_age
      reapprove_flag subreddit in
  let scanner :=
    init subreddit.1 subreddit.2
      (Cli.modqueue_checks now style human_timedelta min_score min_age) reapprove_flag in
  result.1 = Return () ∧
  issued result.2 = [] ∧
  items_to_remove result.2 = List.filter (verdict scanner) (yielded subreddit.2) ∧
  items_to_reapprove result.2 = List.filter (reapproved scanner) (yielded subreddit.2).
Proof.
  intros He result scanner. subst result. unfold Cli.modqueue_subreddit.
  fold scanner.
  destruct (failed_scan_buckets scanner e He) as (Hzero & Hrm & Hra).
  pose proof (scan_result scanner) as (Hiss & _).
  destruct (scan scanner) as [[n m] scanner'] eqn:Hscan. simpl in *.
  injection Hzero as -> ->. by destruct dry_run.
Qed.

(** X11.  Outside a dry run, for a subreddit whose listing does not
    raise and on a platform where no call raises, the [modqueue] command
    sends the remove and lock calls of every item classified for
    removal, in the order of the listing, and then the approve calls of
    every item classified for reapproval, and nothing else. *)
Theorem modqueue_command_acts_on_buckets remote min_score min_age reapprove_flag
    subreddit :
  raises subreddit.2 = None →
  (∀ item, remove_raises remote item = None) →
  (∀ item, approve_raises remote item = None) →
  let result :=
    Cli.modqueue_subreddit now style human_timedelta false remote min_score min_age
      reapprove_flag subreddit in
  let scanner :=
    init subreddit.1 subreddit.2
      (Cli.modqueue_checks now style human_timedelta min_score min_age) reapprove_flag in
  result.1 = Return () ∧
  issued result.2 =
    (List.filter (verdict scanner) (yielded subreddit.2) ≫= λ item, [Remove item; Lock item])
    ++ (Approve <$> List.filter (reapproved scanner) (yielded subreddit.2)).
Proof.
  intros Hok Hrm Hap result scanner. subst result. unfold Cli.modqueue_subreddit.
  fold scanner.
  pose proof (scan_result scanner) as (Hiss & _ & _ & Hcount).
  specialize (Hcount Hok).
  destruct (scan_buckets scanner) as [Hb1 Hb2].
  destruct (foldl_scan_item (yielded (listing scanner)) scanner) as (_ & _ & Hb1' & Hb2').
  rewrite Hb1' in Hb1. rewrite Hb2' in Hb2. simpl in Hb1, Hb2.
  destruct (scan scanner) as [[n m] scanned] eqn:Hscan. simpl in *.
  injection Hcount as -> ->. rewrite <-Hb1, <-Hb2.
  assert (Hremoved :
    ∃ after,
      (if negb (Nat.eqb (length (items_to_remove scanned)) 0)
       then remove_found remote scanned else (Return (), scanned)) = (Return (), after) ∧
      issued after = items_to_remove scanned ≫= (λ item, [Remove item; Lock item]) ∧
      items_to_reapprove after = items_to_reapprove scanned).
  { destruct (items_to_remove scanned) as [|x xs] eqn:Hbucket.
    - exists scanned. by rewrite Hiss.
    - simpl negb. cbv iota.
      exists (remove_found remote scanned).2.
      destruct (remove_loop_issued remote (items_to_remove scanned) scanned) as [Hret Hsent];
        [done|].
      destruct (remove_loop_buckets remote (items_to_remove scanned) scanned) as [_ Hkeep].
      fold (remove_found remote scanned) in Hret, Hsent, Hkeep.
      split_and!.
      + destruct (remove_found remote scanned) as [o a]. simpl in *. by subst o.
      + by rewrite Hsent, Hiss, Hbucket.
      + done. }
  destruct Hremoved as (after & -> & Hsent & Hkeep).
  destruct (items_to_reapprove scanned) as [|x xs] eqn:Hbucket.
  - simpl. rewrite Hsent. by rewrite app_nil_r.
  - simpl negb. cbv iota.
    destruct (reapprove_loop_issued remote (items_to_reapprove after) after) as [Hret Hap'];
      [done|].
    fold (reapprove_found remote after) in Hret, Hap'.
    by rewrite Hret, Hap', Hsent, Hkeep.
Qed.

End CliCommands.

Lemma modqueue_command_skips_failed_scan_witness :
  let subreddit :=
    ("pics", mkListing [Examples.spam_item; Examples.approved_item] (Some Forbidden)) in
  let result :=
    Cli.modqueue_subreddit Examples.clock ansi_style Examples.span false Examples.obliging
      10 3600 true subreddit in
  raises subreddit.2 = Some Forbidden ∧
  result.1 = Return () ∧
  Modqueue.issued result.2 = [] ∧
  Modqueue.items_to_remove result.2 = [Examples.spam_item] ∧
  Modqueue.items_to_reapprove result.2 = [Examples.approved_item].
Proof.
  intros subreddit result. split; [reflexivity|].
  destruct (modqueue_command_skips_failed_scan Examples.clock ansi_style Examples.span
              false Examples.obliging 10 3600 true subreddit Forbidden eq_refl)
    as (Hret & Hiss & Hrm & Hra).
  split; [exact Hret|]. split; [exact Hiss|]. subst result.
  split; [rewrite Hrm|rewrite Hra]; vm_compute; reflexivity.
Defined.

Lemma modqueue_command_acts_on_buckets_witness :
  let subreddit :=
    ("pics", mkListing [Examples.spam_item; Examples.approved_item; Examples.fine_item] None) in
  let result :=
    Cli.modqueue_subreddit Examples.clock ansi_style Examples.span false Examples.obliging
      10 3600 true subreddit in
  raises subreddit.2 = None ∧
  result.1 = Return () ∧
  Modqueue.issued result.2 =
    [Modqueue.Remove Examples.spam_item; Modqueue.Lock Examples.spam_item;
     Modqueue.Approve Examples.approved_item].
Proof.
  intros subreddit result. split; [reflexivity|].
  destruct (modqueue_command_acts_on_buckets Examples.clock ansi_style Examples.span
              Examples.obliging 10 3600 true subreddit eq_refl (λ _, eq_refl) (λ _, eq_refl))
    as (Hret & Hiss).
  split; [exact Hret|]. subst result. rewrite Hiss. vm_compute. reflexivity.
Defined.

(* ===================================================================== *)
(** ** Further properties of the conversation scanner                     *)
(* ===================================================================== *)

Section ModmailMore.
Import Modmail.

Implicit Types (self : t) (c : Conversation).

Lemma size_list_to_set_le (l : list string) :
  (size (list_to_set l : gset string) ≤ length l)%nat.
Proof.
  induction l as [|x l IH]; simpl.
  - change (size (∅ : gset string) ≤ 0)%nat. by rewrite size_empty.
  - change (size ({[x]} ∪ list_to_set l : gset string) ≤ S (length l))%nat.
    rewrite size_union_alt, size_singleton.
    assert (size (list_to_set l ∖ {[x]} : gset string) ≤ size (list_to_set l : gset string))%nat
      by (apply subseteq_size, subseteq_difference_l; reflexivity).
    lia.
Qed.

Lemma scan_count self n :
  (scan self).1 = Return n → n = size (items_to_archive (scan self).2).
Proof.
  unfold scan.
  destruct (for_states (states self) (self, [])) as [[u|e] [self1 aggregated]]; simpl.
  - intros [= <-]. by rewrite log_subreddit_archive.
  - done.
Qed.

Lemma bump_count_total state counts :
  sum_list (bump_count state counts).*2 = S (sum_list counts.*2).
Proof.
  induction counts as [|[k n] counts IH]; csimpl; [done|].
  destruct (String.eqb k state); csimpl; [lia|]. rewrite IH. lia.
Qed.

Lemma bump_total subreddit state aggregated :
  total (bump subreddit state aggregated) = S (total aggregated).
Proof.
  unfold total.
  induction aggregated as [|[k counts] aggregated IH]; csimpl; [done|].
  destruct (String.eqb k subreddit); csimpl.
  - rewrite bump_count_total. lia.
  - rewrite IH. lia.
Qed.

Lemma foldl_scan_conversation_total state convs : ∀ acc : t * Aggregated,
  total (foldl (scan_conversation state) acc convs).2 = total acc.2 + length convs.
Proof.
  induction convs as [|c convs IH]; intros [self aggregated]; simpl; [lia|].
  rewrite IH. simpl. rewrite bump_total. lia.
Qed.

Lemma for_states_total states_ : ∀ acc : t * Aggregated,
  total (for_states states_ acc).2.2 = total acc.2 + length (pulled (listing acc.1) states_).
Proof.
  induction states_ as [|state rest IH]; intros [self aggregated]; simpl; [lia|].
  pose proof (foldl_scan_conversation state (yielded (listing self state)) self aggregated)
    as (_ & _ & Hli).
  pose proof (foldl_scan_conversation_total state (yielded (listing self state))
                (self, aggregated)) as Htot.
  destruct (foldl (scan_conversation state) (self, aggregated)
              (yielded (listing self state))) as [self1 aggregated1].
  simpl in *. rewrite length_app.
  destruct (raises (listing self state)); simpl.
  - lia.
  - rewrite IH. simpl. rewrite Hli. lia.
Qed.

(** X12.  When [scan], started on a fresh scanner, returns, the count it
    returns is the number of distinct conversation ids among the pulled
    conversations that no check matched; it is the number of elements of
    the archive set and at most the number of conversations pulled. *)
Theorem scan_counts_distinct_unmatched source rules states_ n :
  let self := init source rules states_ in
  (scan self).1 = Return n →
  let unmatched :=
    List.filter (λ c, negb (matched rules c)) (pulled source states_) in
  n = size (list_to_set (conv_id <$> unmatched) : gset string) ∧
  n = length (elements (scan self).2) ∧
  (n ≤ length (pulled source states_))%nat.
Proof.
  intros self Hret unmatched.
  apply scan_count in Hret.
  assert (Hempty : well_keyed rules [] (∅ : gmap string Conversation))
    by (intros k v Hkv; by rewrite lookup_empty in Hkv).
  destruct (archive_of_spec rules (pulled source states_) ∅ [] Hempty) as [_ Hdom].
  pose proof (scan_archive self) as Hscan. simpl in Hscan.
  rewrite dom_empty_L, (left_id_L ∅ (∪)) in Hdom.
  assert (Hn : n = size (list_to_set (conv_id <$> unmatched) : gset string)).
  { rewrite Hret, Hscan. unfold unmatched. rewrite <-Hdom. by rewrite size_dom. }
  split_and!; [done| |].
  - rewrite Hret. unfold elements. by rewrite length_fmap, length_map_to_list.
  - rewrite Hn.
    etransitivity; [apply size_list_to_set_le|].
    rewrite length_fmap. unfold unmatched. apply filter_length_le.
Qed.

Lemma scan_counts_distinct_unmatched_witness :
  let source := λ _ : string, mkListing [Examples.mod_started; Examples.waiting] None in
  let self := init source [check_unanswered ansi_style false] ["new"; "archived"] in
  (scan self).1 = Return 1 ∧
  1 = length (elements (scan self).2) ∧
  length (pulled source ["new"; "archived"]) = 4.
Proof.
  intros source self.
  assert (Hret : (scan self).1 = Return 1) by (vm_compute; reflexivity).
  split; [exact Hret|].
  destruct (scan_counts_distinct_unmatched source [check_unanswered ansi_style false]
              ["new"; "archived"] 1 Hret) as (_ & Hlen & _).
  split; [exact Hlen|reflexivity].
Defined.

Lemma count_in_bump state state' counts :
  count_in state' (bump_count state counts) =
    count_in state' counts + (if String.eqb state state' then 1 else 0).
Proof.
  unfold count_in.
  induction counts as [|[k n] counts IH]; simpl.
  - destruct (String.eqb state state'); simpl; lia.
  - destruct (String.eqb k state) eqn:Hk; simpl.
    + apply String.eqb_eq in Hk as ->.
      destruct (String.eqb state state'); simpl; lia.
    + destruct (String.eqb k state') eqn:Hk'; simpl; [|done].
      apply String.eqb_eq in Hk' as ->. rewrite String.eqb_sym, Hk. lia.
Qed.

Lemma count_of_bump subreddit state subreddit' state' aggregated :
  count_of subreddit' state' (bump subreddit state aggregated) =
    count_of subreddit' state' aggregated
    + (if String.eqb subreddit subreddit' && String.eqb state state' then 1 else 0).
Proof.
  unfold count_of.
  induction aggregated as [|[k counts] aggregated IH]; simpl.
  - destruct (String.eqb subreddit subreddit'); simpl; [|lia].
    apply (count_in_bump state state' []).
  - destruct (String.eqb k subreddit) eqn:Hk; simpl.
    + apply String.eqb_eq in Hk as ->.
      destruct (String.eqb subreddit subreddit'); simpl; [|lia].
      apply count_in_bump.
    + destruct (String.eqb k subreddit') eqn:Hk'; simpl; [|done].
      apply String.eqb_eq in Hk' as ->. rewrite String.eqb_sym, Hk. simpl. lia.
Qed.

Lemma foldl_scan_conversation_count subreddit state' state convs :
  ∀ acc : t * Aggregated,
  count_of subreddit state' (foldl (scan_conversation state) acc convs).2 =
    count_of subreddit state' acc.2
    + length (List.filter (counts_for subreddit state') ((λ c, (state, c)) <$> convs)).
Proof.
  induction convs as [|c convs IH]; intros [self aggregated]; csimpl; [lia|].
  rewrite IH. simpl. rewrite count_of_bump. unfold counts_for at 2. simpl.
  destruct (String.eqb (owner_display_name c) subreddit && String.eqb state state');
    simpl; lia.
Qed.

Lemma for_states_count subreddit state' states_ : ∀ acc : t * Aggregated,
  count_of subreddit state' (for_states states_ acc).2.2 =
    count_of subreddit state' acc.2
    + length (List.filter (counts_for subreddit state')
                (pulled_under (listing acc.1) states_)).
Proof.
  induction states_ as [|state rest IH]; intros [self aggregated]; simpl; [lia|].
  pose proof (foldl_scan_conversation state (yielded (listing self state)) self aggregated)
    as (_ & _ & Hli).
  pose proof (foldl_scan_conversation_count subreddit state' state
                (yielded (listing self state)) (self, aggregated)) as Hcount.
  destruct (foldl (scan_conversation state) (self, aggregated)
              (yielded (listing self state))) as [self1 aggregated1].
  simpl in *. rewrite List.filter_app, length_app.
  destruct (raises (listing self state)); simpl.
  - lia.
  - rewrite IH. simpl. rewrite Hli. lia.
Qed.

(** X13.  The count [scan] accumulates for a subreddit and a state is
    the number of conversations of that subreddit pulled under that
    state, whether a check matched them or not (and whatever their
    [is_internal]); all the counts together add up to the number of
    conversations pulled, not to the number of conversations to
    archive. *)
Theorem aggregated_counts_every_pulled_conversation self :
  let aggregated := (for_states (states self) (self, [])).2.2 in
  (∀ subreddit state,
     count_of subreddit state aggregated =
       length (List.filter (counts_for subreddit state)
                 (pulled_under (listing self) (states self)))) ∧
  total aggregated = length (pulled (listing self) (states self)).
Proof.
  intros aggregated. subst aggregated. split.
  - intros subreddit state.
    by rewrite (for_states_count subreddit state (states self) (self, [])).
  - by rewrite (for_states_total (states self) (self, [])).
Qed.

Lemma archive_loop_spec archive_raises items : ∀ sent self,
  let result := archive_loop archive_raises items sent self in
  result.1 = sent ++ List.filter (λ c, negb (is_internal c)) items ∧
  items_to_archive result.2 = items_to_archive self ∧
  logged_count info "Archived" (logged result.2) =
    logged_count info "Archived" (logged self)
    + length (List.filter (λ c, negb (is_internal c)) items) ∧
  logged_count info "Skipping internal conversation" (logged result.2) =
    logged_count info "Skipping internal conversation" (logged self)
    + length (List.filter is_internal items) ∧
  length (List.filter (λ r, bool_decide (method r = exception)) (logged result.2)) =
    length (List.filter (λ r, bool_decide (method r = exception)) (logged self))
    + length (List.filter
                (λ c, negb (is_internal c) && bool_decide (archive_raises c ≠ None)) items).
Proof.
  unfold logged_count.
  induction items as [|c items IH]; intros sent self; simpl.
  - rewrite app_nil_r. split_and!; (done || lia).
  - destruct (is_internal c) eqn:Hint; simpl.
    + match goal with |- context [archive_loop archive_raises items ?x ?s] =>
        destruct (IH x s) as (-> & -> & -> & -> & ->) end.
      simpl. rewrite !List.filter_app, !length_app. simpl. split_and!; (done || lia).
    + match goal with |- context [archive_loop archive_raises items ?x ?s] =>
        destruct (IH x s) as (-> & -> & -> & -> & ->) end.
      destruct (archive_raises c); simpl;
        rewrite ?List.filter_app, ?length_app; simpl;
        rewrite <-?app_assoc; simpl; split_and!; (done || lia).
Qed.

(** X14.  [archive_found] calls [archive()] on exactly the elements of
    the archive set that are not internal, once each, and leaves the set
    as it is.  It catches an exception of [archive()] and still logs
    "Archived" for that conversation: the number of "Archived" lines is
    the number of calls sent, whatever the platform answered, while one
    line is logged with [exception] per call that raised. *)
Theorem archive_found_skips_internal archive_raises self :
  let result := archive_found archive_raises self in
  result.1 = List.filter (λ c, negb (is_internal c)) (elements self) ∧
  items_to_archive result.2 = items_to_archive self ∧
  logged_count info "Archived" (logged result.2) =
    logged_count info "Archived" (logged self) + length result.1 ∧
  logged_count info "Skipping internal conversation" (logged result.2) =
    logged_count info "Skipping internal conversation" (logged self)
    + length (List.filter is_internal (elements self)) ∧
  length (List.filter (λ r, bool_decide (method r = exception)) (logged result.2)) =
    length (List.filter (λ r, bool_decide (method r = exception)) (logged self))
    + length (List.filter (λ c, bool_decide (archive_raises c ≠ None)) result.1).
Proof.
  intros result. subst result. unfold archive_found.
  destruct (archive_loop_spec archive_raises (elements self) [] self)
    as (H1 & H2 & H3 & H4 & H5).
  rewrite app_nil_l in H1. rewrite H1. split_and!; [done|done|done|done|].
  rewrite H5. f_equal. clear.
  induction (elements self) as [|c l IH]; simpl; [done|].
  destruct (is_internal c); simpl; [done|].
  destruct (bool_decide (archive_raises c ≠ None)); simpl; by rewrite IH.
Qed.

(** A rule set of checks that cannot raise is scanned as [scan] does. *)
Lemma for_partial_checks_returning c cs : ∀ self,
  for_partial_checks c (returning <$> cs) self = (Return (), for_checks c cs self).
Proof.
  induction cs as [|check cs IH]; intros self; csimpl; [done|].
  unfold returning at 1. destruct (call check c) as [result message].
  destruct result; [done|]. apply IH.
Qed.

Lemma for_conversations_returning cs state convs : ∀ acc : t * Aggregated,
  checks acc.1 = cs →
  for_conversations (returning <$> cs) state convs acc =
    (Return (), foldl (scan_conversation state) acc convs).
Proof.
  induction convs as [|c convs IH]; intros [self aggregated] Hcs; simpl in *; [done|].
  rewrite for_partial_checks_returning, Hcs. apply IH. simpl.
  by destruct (for_checks_archive c cs self) as (_ & Hkeep & _); rewrite <-Hcs in *.
Qed.

Lemma for_partial_states_returning cs states_ : ∀ acc : t * Aggregated,
  checks acc.1 = cs →
  for_partial_states (returning <$> cs) states_ acc = for_states states_ acc.
Proof.
  induction states_ as [|state rest IH]; intros [self aggregated] Hcs; simpl in *; [done|].
  rewrite (for_conversations_returning cs state _ (self, aggregated)) by done.
  destruct (raises (listing self state)); [done|].
  apply IH.
  by destruct (foldl_scan_conversation state (yielded (listing self state)) self aggregated)
    as (_ & -> & _).
Qed.

Lemma partial_scan_returning self :
  partial_scan (returning <$> checks self) self = scan self.
Proof.
  unfold partial_scan, scan.
  by rewrite (for_partial_states_returning (checks self) (states self) (self, [])).
Qed.

Lemma archive_found_sent archive_raises self :
  (archive_found archive_raises self).1 =
    List.filter (λ c, negb (is_internal c)) (elements self) ∧
  items_to_archive (archive_found archive_raises self).2 = items_to_archive self.
Proof.
  unfold archive_found.
  destruct (archive_loop_spec archive_raises (elements self) [] self) as (H1 & H2 & _).
  by rewrite app_nil_l in H1.
Qed.

End ModmailMore.

Section CliModmail.
Import Modmail.

Variable style : string → string → string.
Variable fromisoformat : string → Z.

Implicit Types (self : t) (c : Conversation).

(** X15.  What the rule set of the [modmail] command decides for a
    conversation.  Without [--ignore-unanswered], a conversation no
    moderator answered is kept (logged "unanswered").  Otherwise, with
    [--ignore-pending-response] or when the user never wrote, it is
    added to the archive set; when both updates exist it is kept
    (logged "needs mod response") if the moderator update is the
    earlier one and archived if not; and with [--ignore-unanswered]
    alone, a conversation the user wrote in and no moderator answered
    makes the check raise. *)
Theorem cli_modmail_decision ignore_unanswered ignore_pending_response c self :
  let run :=
    for_partial_checks c
      (Cli.modmail_checks style fromisoformat ignore_unanswered ignore_pending_response)
      self in
  (ignore_unanswered = false → last_mod_update c = None →
   run = (Return (), log info (style "unanswered" "red") (Some c) self)) ∧
  ((ignore_unanswered = true ∨ last_mod_update c ≠ None) →
   (ignore_pending_response = true ∨ last_user_update c = None) →
   run = (Return (), archive_add c self)) ∧
  (∀ mod_update user_update,
     ignore_pending_response = false →
     last_mod_update c = Some mod_update →
     last_user_update c = Some user_update →
     run =
       if (fromisoformat mod_update <? fromisoformat user_update)%Z
       then (Return (), log info (style "needs mod response" "red") (Some c) self)
       else (Return (), archive_add c self)) ∧
  (ignore_unanswered = true → ignore_pending_response = false →
   last_mod_update c = None → last_user_update c ≠ None →
   run = (Raise OtherException, self)).
Proof.
  intros run. subst run. unfold Cli.modmail_checks. cbn [for_partial_checks].
  unfold returning, call, check_unanswered. cbn [func].
  destruct (pending_response_behaviour style fromisoformat ignore_pending_response c)
    as (Hskip & Hraise & Hcompare).
  split_and!.
  - intros -> ->. done.
  - intros Hanswered Hpending. rewrite (Hskip Hpending).
    destruct ignore_unanswered; [done|].
    destruct Hanswered as [|Hanswered]; [done|].
    by rewrite bool_decide_eq_false_2.
  - intros mod_update user_update Hip Hmod Huser.
    rewrite (Hcompare mod_update user_update Hip Hmod Huser), Hmod.
    destruct ignore_unanswered; simpl; by destruct (_ <? _)%Z.
  - intros -> Hip Hmod Huser. by rewrite (Hraise Hip Huser Hmod).
Qed.

Lemma for_partial_checks_never_raises ignore_pending_response c self :
  ∃ self',
    for_partial_checks c
      (Cli.modmail_checks style fromisoformat false ignore_pending_response) self
    = (Return (), self') ∧
    listing self' = listing self.
Proof.
  unfold Cli.modmail_checks. cbn [for_partial_checks].
  unfold returning, call, check_unanswered, check_pending_response. cbn [func].
  destruct (last_mod_update c), (last_user_update c), ignore_pending_response; simpl;
    try destruct (_ <? _)%Z; eauto.
Qed.

Lemma for_conversations_never_raises ignore_pending_response state convs :
  ∀ acc : t * Aggregated,
  ∃ acc',
    for_conversations
      (Cli.modmail_checks style fromisoformat false ignore_pending_response) state convs acc
    = (Return (), acc') ∧
    listing acc'.1 = listing acc.1.
Proof.
  induction convs as [|c convs IH]; intros [self aggregated]; cbn [for_conversations].
  - by exists (self, aggregated).
  - destruct (for_partial_checks_never_raises ignore_pending_response c self)
      as (self' & Heq & Hli).
    cbn [fst snd]. rewrite Heq.
    destruct (IH (self', bump (owner_display_name c) state aggregated))
      as (acc' & -> & Hli').
    exists acc'. split; [done|]. by rewrite Hli'.
Qed.

Lemma for_partial_states_never_raises ignore_pending_response states_ :
  ∀ acc : t * Aggregated,
  (∀ state, state ∈ states_ → raises (listing acc.1 state) = None) →
  ∃ acc',
    for_partial_states
      (Cli.modmail_checks style fromisoformat false ignore_pending_response) states_ acc
    = (Return (), acc').
Proof.
  induction states_ as [|state rest IH]; intros acc Hok; cbn [for_partial_states].
  - by exists acc.
  - destruct (for_conversations_never_raises ignore_pending_response state
                (yielded (listing acc.1 state)) acc) as (acc' & -> & Hli).
    rewrite (Hok state) by left.
    apply IH. intros state' Hin. rewrite Hli. apply Hok. by right.
Qed.

(** X16.  Without [--ignore-unanswered], no check of the [modmail]
    command can raise: when no listing raises, the scan returns its
    count.  [check_unanswered], which runs first, keeps every
    conversation without a moderator update away from
    [check_pending_response]. *)
Theorem modmail_checks_cannot_raise ignore_pending_response source states_ :
  (∀ state, state ∈ states_ → raises (source state) = None) →
  ∃ n,
    (partial_scan (Cli.modmail_checks style fromisoformat false ignore_pending_response)
       (init source [] states_)).1 = Return n.
Proof.
  intros Hok. unfold partial_scan.
  destruct (for_partial_states_never_raises ignore_pending_response states_
              (init source [] states_, [])) as ([self' aggregated] & Heq); [done|].
  simpl in Heq. simpl. rewrite Heq. eauto.
Qed.

(** X17.  With [--ignore-unanswered] and without
    [--ignore-pending-response], the [modmail] command raises as soon
    as the listing yields a conversation the user wrote in and no
    moderator answered: [check_pending_response] parses the missing
    moderator update.  When that conversation comes first, nothing has
    been logged, asked or archived. *)
Theorem modmail_ignore_unanswered_raises dry_run confirm archive_raises source
    state rest c more :
  yielded (source state) = c :: more →
  last_mod_update c = None →
  last_user_update c ≠ None →
  Cli.modmail style fromisoformat dry_run confirm archive_raises source (state :: rest)
    true false
  = (Raise OtherException, false, [], init source [] (state :: rest)).
Proof.
  intros Hyield Hmod Huser. unfold Cli.modmail, partial_scan.
  cbn [states init for_partial_states listing fst snd]. rewrite Hyield.
  cbn [for_conversations fst snd].
  unfold Cli.modmail_checks. cbn [for_partial_checks].
  unfold returning, call, check_unanswered. cbn [func].
  destruct (pending_response_behaviour style fromisoformat false c) as (_ & Hraise & _).
  by rewrite (Hraise eq_refl Huser Hmod).
Qed.

(** X18.  The [modmail] command asks for confirmation exactly when the
    scan returned a count other than zero, and raises when the answer is
    no, also in a dry run.  It sends [archive()] calls only after a yes
    and outside a dry run, and then to exactly the conversations of the
    archive set that are not internal. *)
Theorem modmail_command_gating dry_run confirm archive_raises source states_
    ignore_unanswered ignore_pending_response :
  let scanned :=
    partial_scan
      (Cli.modmail_checks style fromisoformat ignore_unanswered ignore_pending_response)
      (init source [] states_) in
  let result :=
    Cli.modmail style fromisoformat dry_run confirm archive_raises source states_
      ignore_unanswered ignore_pending_response in
  let asked := result.1.1.2 in
  let sent := result.1.2 in
  (asked = true ↔ ∃ n, scanned.1 = Return n ∧ n ≠ 0) ∧
  (asked = true → confirm = false → result.1.1.1 = Raise OtherException) ∧
  (asked = false ∨ confirm = false ∨ dry_run = true → sent = []) ∧
  (asked = true → confirm = true → dry_run = false →
   sent = List.filter (λ c, negb (is_internal c)) (elements scanned.2)) ∧
  items_to_archive result.2 = items_to_archive scanned.2.
Proof.
  intros scanned result asked sent. subst asked sent result. unfold Cli.modmail.
  fold scanned.
  pose proof (archive_found_sent archive_raises scanned.2) as [Hsent Hkeep].
  destruct scanned as [[[|n]|e] scanner]; simpl in *;
    [|destruct confirm, dry_run; simpl;
      [| destruct (archive_found archive_raises scanner) as [sent scanner']; simpl in *
       | | ]|];
    split_and!;
    first [ done
          | by intros [|[|]]
          | split; [done|]; by intros (? & [=] & ?)
          | split; [done|]; by intros (? & [= <-] & ?)
          | split; [|done]; intros _; by eexists ].
Qed.

End CliModmail.

Lemma modmail_checks_cannot_raise_witness :
  let source := λ _ : string,
    mkListing [Examples.waiting; Examples.mod_started; Examples.answered] None in
  (∀ state, state ∈ ["new"; "archived"] → raises (source state) = None) ∧
  ∃ n,
    (Modmail.partial_scan (Cli.modmail_checks ansi_style Examples.instant false false)
       (Modmail.init source [] ["new"; "archived"])).1 = Return n.
Proof.
  intros source. split; [done|].
  by apply (modmail_checks_cannot_raise ansi_style Examples.instant false source
              ["new"; "archived"]).
Defined.

Lemma modmail_ignore_unanswered_raises_witness :
  let source := λ _ : string, mkListing [Examples.waiting; Examples.answered] None in
  yielded (source "new") = Examples.waiting :: [Examples.answered] ∧
  last_mod_update Examples.waiting = None ∧
  last_user_update Examples.waiting ≠ None ∧
  Cli.modmail ansi_style Examples.instant false true (λ _, None) source ["new"] true false
  = (Raise OtherException, false, [], Modmail.init source [] ["new"]).
Proof.
  intros source. split; [reflexivity|]. split; [reflexivity|]. split; [done|].
  by apply (modmail_ignore_unanswered_raises ansi_style Examples.instant false true
              (λ _, None) source "new" [] Examples.waiting [Examples.answered]).
Defined.

(* ===================================================================== *)
(** ** Further properties of the ladder classifier                        *)
(* ===================================================================== *)

Section InactivityMore.
Import InactivityManager.

Implicit Types (self : t) (buckets : Buckets) (l : Locals).

Lemma contain_all_inactive_not_active moderators :
  contain_all_inactive moderators = negb (contain_active moderators).
Proof.
  unfold contain_all_inactive, contain_active.
  induction moderators as [|m moderators IH]; simpl; [done|].
  rewrite IH. by destruct (is_active m).
Qed.

Lemma for_moderators_invariant rest : ∀ i pos self l,
  roster_invariant l → roster_invariant (for_moderators i pos rest self l).2.
Proof.
  induction rest as [|moderator rest IH]; intros i pos self l [Hnone Hact]; simpl;
    [done|].
  destruct (String.eqb (name moderator) (me self)); simpl.
  - apply IH. split; simpl; [done|].
    intros Hm. unfold contain_active. rewrite existsb_app. simpl.
    rewrite Hm. by rewrite orb_true_r.
  - destruct (my_position l) eqn:Hpos; apply IH; (split; simpl; [done|]).
    + intros Him. unfold contain_active in *. rewrite existsb_app.
      by rewrite (Hact Him).
    + exact Hact.
Qed.

Lemma cond_fire_ne (c : bool) a a' i mods buckets :
  a' ≠ a →
  SubredditBucket.bucket ((if c then fire a i mods buckets else buckets) a') =
    SubredditBucket.bucket (buckets a').
Proof.
  intros Hne. destruct c; [|done]. unfold fire. by destruct (decide (a' = a)).
Qed.

Lemma cond_fire_eq (c : bool) a i mods buckets :
  SubredditBucket.bucket ((if c then fire a i mods buckets else buckets) a) =
    SubredditBucket.bucket (buckets a) ++ (if c then [(i, mods)] else []).
Proof.
  destruct c; [|by rewrite app_nil_r]. unfold fire. by destruct (decide (a = a)).
Qed.

Lemma ladder_other i l buckets a :
  a ∉ ladder_attrs →
  SubredditBucket.bucket (ladder i l buckets a) = SubredditBucket.bucket (buckets a).
Proof.
  intros Ha. unfold ladder.
  repeat case_match; try done;
    apply (cond_fire_ne true); intros ->; apply Ha; unfold ladder_attrs;
    repeat first [by left | right].
Qed.

Lemma classify_only_one_active i l buckets :
  roster_invariant l →
  SubredditBucket.bucket (classify i l buckets only_one_active) =
    SubredditBucket.bucket (buckets only_one_active).
Proof.
  intros [_ Hact]. unfold classify.
  assert (Hdead : im_active l && contain_all_inactive (above_me l)
                  && contain_all_inactive (below_me l) = false).
  { destruct (im_active l); [|done].
    rewrite (contain_all_inactive_not_active (below_me l)), (Hact eq_refl).
    by rewrite andb_false_r. }
  rewrite Hdead. cbv iota.
  rewrite !cond_fire_ne by done.
  rewrite ladder_other by (unfold ladder_attrs; by repeat (apply not_elem_of_cons; split; [done|]); apply not_elem_of_nil).
  rewrite cond_fire_ne by done.
  by rewrite (cond_fire_ne true).
Qed.

Lemma fresh_locals_invariant : roster_invariant fresh_locals.
Proof. by split. Qed.

Lemma classify_all_subreddits i l buckets :
  SubredditBucket.bucket (classify i l buckets all_subreddits) =
    SubredditBucket.bucket (buckets all_subreddits) ++ [(i, [])].
Proof.
  unfold classify.
  rewrite !cond_fire_ne by done.
  rewrite ladder_other by (unfold ladder_attrs; by repeat (apply not_elem_of_cons; split; [done|]); apply not_elem_of_nil).
  rewrite cond_fire_ne by done.
  by rewrite (cond_fire_eq true).
Qed.

Lemma scan_subreddit_buckets moderators i subreddit self buckets :
  let after := (scan_subreddit moderators i subreddit (self, buckets)).2 in
  SubredditBucket.bucket (after only_one_active) =
    SubredditBucket.bucket (buckets only_one_active) ∧
  SubredditBucket.bucket (after all_subreddits) =
    SubredditBucket.bucket (buckets all_subreddits)
    ++ match raises (moderators (display_name subreddit)) with
       | Some _ => []
       | None => [(i, [])]
       end ∧
  (raises (moderators (display_name subreddit)) ≠ None → after = buckets).
Proof.
  unfold scan_subreddit.
  pose proof (for_moderators_invariant (yielded (moderators (display_name subreddit)))
                i 1 self fresh_locals fresh_locals_invariant) as Hinv.
  destruct (for_moderators i 1 (yielded (moderators (display_name subreddit))) self
              fresh_locals) as [self1 l].
  simpl in Hinv.
  destruct (raises (moderators (display_name subreddit))); simpl.
  - by rewrite !app_nil_r.
  - split_and!; [by apply classify_only_one_active|apply classify_all_subreddits|done].
Qed.

(** X19.  [scan] never adds a community to the only-one-active bucket:
    the self entry is itself appended to [below_me], so that the test
    "self active and everybody below inactive" cannot hold. *)
Theorem only_one_active_never_fires moderators self buckets :
  SubredditBucket.bucket ((scan moderators self buckets).2 only_one_active) =
    SubredditBucket.bucket (buckets only_one_active).
Proof.
  unfold scan. generalize 0 as i. generalize (subreddits self) at 1 as rest.
  intros rest. revert self buckets.
  induction rest as [|subreddit rest IH]; intros self buckets i; cbn [for_subreddits];
    [done|].
  destruct (scan_subreddit_buckets moderators i subreddit self buckets) as (Hone & _).
  destruct (scan_subreddit moderators i subreddit (self, buckets)) as [self1 buckets1].
  simpl in Hone. by rewrite IH.
Qed.

Lemma for_subreddits_all moderators rest : ∀ i self buckets,
  SubredditBucket.bucket
    ((for_subreddits moderators i rest (self, buckets)).2 all_subreddits) =
    SubredditBucket.bucket (buckets all_subreddits) ++ fetched moderators i rest.
Proof.
  induction rest as [|subreddit rest IH]; intros i self buckets;
    cbn [for_subreddits fetched]; [by rewrite app_nil_r|].
  destruct (scan_subreddit_buckets moderators i subreddit self buckets) as (_ & Hall & _).
  destruct (scan_subreddit moderators i subreddit (self, buckets)) as [self1 buckets1].
  simpl in Hall. rewrite IH, Hall.
  destruct (raises (moderators (display_name subreddit)));
    by rewrite <-app_assoc.
Qed.

(** X20.  After [scan], what it has appended to the all-subreddits
    bucket is one entry, with no moderators, for every subreddit whose
    roster listing did not raise, in order: a subreddit whose roster
    cannot be fetched is skipped and the scan goes on with the next
    one. *)
Theorem all_subreddits_are_the_fetched_ones moderators self buckets :
  SubredditBucket.bucket ((scan moderators self buckets).2 all_subreddits) =
    SubredditBucket.bucket (buckets all_subreddits)
    ++ fetched moderators 0 (subreddits self) ∧
  (∀ i, (i, []) ∈ fetched moderators 0 (subreddits self) ↔
        ∃ subreddit,
          subreddits self !! i = Some subreddit ∧
          raises (moderators (display_name subreddit)) = None).
Proof.
  split.
  - apply for_subreddits_all.
  - assert (Hgen : ∀ rest k i,
      (i, []) ∈ fetched moderators k rest ↔
      ∃ subreddit, (k ≤ i)%nat ∧ rest !! (i - k)%nat = Some subreddit ∧
                   raises (moderators (display_name subreddit)) = None).
    { induction rest as [|subreddit rest IH]; intros k i; cbn [fetched].
      - split; [by intros ?%elem_of_nil|]. by intros (? & _ & ? & _).
      - specialize (IH (S k) i).
        destruct (raises (moderators (display_name subreddit))) eqn:Hr.
        + rewrite IH. split.
          * intros (sub & Hle & Hlook & Hok). exists sub. split; [lia|]. split; [|done].
            replace (i - k)%nat with (S (i - S k)) by lia. done.
          * intros (sub & Hle & Hlook & Hok).
            destruct (decide (i = k)) as [->|Hne].
            -- rewrite Nat.sub_diag in Hlook. simpl in Hlook. congruence.
            -- exists sub. split; [lia|]. split; [|done].
               replace (i - k)%nat with (S (i - S k)) in Hlook by lia. done.
        + rewrite elem_of_cons, IH. split.
          * intros [[= ->] | (sub & Hle & Hlook & Hok)].
            -- exists subreddit. rewrite Nat.sub_diag. done.
            -- exists sub. split; [lia|]. split; [|done].
               replace (i - k)%nat with (S (i - S k)) by lia. done.
          * intros (sub & Hle & Hlook & Hok).
            destruct (decide (i = k)) as [->|Hne]; [by left|].
            right. exists sub. split; [lia|]. split; [|done].
            replace (i - k)%nat with (S (i - S k)) in Hlook by lia. done. }
    intros i. rewrite Hgen. rewrite Nat.sub_0_r. split.
    + intros (sub & _ & ? & ?). by exists sub.
    + intros (sub & ? & ?). exists sub. split; [lia|done].
Qed.

Lemma length_numbered pos roster : length (numbered pos roster) = length roster.
Proof. revert pos. induction roster as [|m roster IH]; intros pos; simpl; [done|]. by rewrite IH. Qed.

Lemma for_moderators_split rest : ∀ i pos self l,
  split_at_self (me self) l →
  pos = S (length (above_me l ++ below_me l)) →
  let r := (for_moderators i pos rest self l).2 in
  split_at_self (me self) r ∧
  above_me r ++ below_me r = (above_me l ++ below_me l) ++ numbered pos rest ∧
  entire_sub_inactive r =
    entire_sub_inactive l && forallb (λ m, negb (is_active m)) rest ∧
  (my_position r = None ↔
   my_position l = None ∧ ∀ m, m ∈ rest → name m ≠ me self) ∧
  (my_position r = None → im_active r = im_active l).
Proof.
  induction rest as [|moderator rest IH]; intros i pos self l Hsplit Hpos;
    cbn [for_moderators numbered forallb name is_active].
  - rewrite app_nil_r, andb_true_r. split_and!; try done.
    split; [|by intros [? _]]. intros ?. split; [done|]. by intros ? ?%elem_of_nil.
  - destruct Hsplit as [Habove Hbelow].
    destruct (String.eqb (name moderator) (me self)) eqn:Hname; cbv beta iota zeta.
    + apply String.eqb_eq in Hname.
      match goal with |- context [for_moderators i (S pos) rest ?s ?l'] =>
        destruct (IH i (S pos) s l') as (Hs & Heq & Hent & Hnone & Him) end.
      * split; cbn; [done|].
        destruct (my_position l).
        -- destruct Hbelow as (m & tl & -> & Hm & Hp).
           eexists m, _. split; [simpl; reflexivity|done].
        -- rewrite Hbelow in *. rewrite app_nil_r in Hpos. subst pos.
           by eexists _, [].
      * cbn. rewrite app_assoc, !length_app in *. simpl. lia.
      * cbn in *. split_and!; [done| | | |].
        -- rewrite Heq. by rewrite <-!app_assoc.
        -- rewrite Hent. by rewrite andb_assoc.
        -- split; [by intros [[=] _]%Hnone|]. intros [_ Hall].
           exfalso. apply (Hall moderator); [by left|done].
        -- by intros [[=] _]%Hnone.
    + apply String.eqb_neq in Hname.
      destruct (my_position l) eqn:Hmy.
      * match goal with |- context [for_moderators i (S pos) rest ?s ?l'] =>
          destruct (IH i (S pos) s l') as (Hs & Heq & Hent & Hnone & Him) end.
        -- split; cbn; [done|].
           destruct Hbelow as (m & tl & -> & Hm & Hp).
           eexists m, _. split; [simpl; reflexivity|done].
        -- cbn. rewrite app_assoc, !length_app in *. simpl. lia.
        -- cbn in *. split_and!; [done| | | |].
           ++ rewrite Heq. by rewrite <-!app_assoc.
           ++ rewrite Hent. by rewrite andb_assoc.
           ++ split; [by intros [? _]%Hnone|]. by intros [? _].
           ++ by intros [? _]%Hnone.
      * match goal with |- context [for_moderators i (S pos) rest ?s ?l'] =>
          destruct (IH i (S pos) s l') as (Hs & Heq & Hent & Hnone & Him) end.
        -- split; cbn; [|done].
           intros m [Hm|[->|?%elem_of_nil]%elem_of_cons]%elem_of_app;
             [by apply Habove|done|done].
        -- cbn. rewrite Hbelow in *. rewrite !app_nil_r, !length_app in *. simpl. lia.
        -- cbn in *. rewrite Hbelow in *. split_and!; [done| | | |].
           ++ rewrite Heq. rewrite !app_nil_r. by rewrite <-!app_assoc.
           ++ rewrite Hent. by rewrite andb_assoc.
           ++ rewrite Hnone. split.
              ** intros [_ Hall]. split; [done|].
                 intros m [->|Hm]%elem_of_cons; [done|by apply Hall].
              ** intros [_ Hall]. split; [done|]. intros m Hm. apply Hall. by right.
           ++ exact Him.
Qed.

Lemma fresh_locals_split me_name : split_at_self me_name fresh_locals.
Proof. split; [|done]. by intros m ?%elem_of_nil. Qed.

(** X21.  The roster loop splits the roster at the first entry of the
    self subject: [above_me] followed by [below_me] is the roster in
    order, every entry carrying its 1-based position; no entry above is
    the self subject; when the self subject is in the roster, its first
    entry is the first entry of [below_me]; when it is not, [below_me] is
    empty, no position is known and the subject counts as inactive.
    [entire_sub_inactive] tells whether every entry is inactive. *)
Theorem roster_is_split_at_self i self roster :
  let l := (for_moderators i 1 roster self fresh_locals).2 in
  above_me l ++ below_me l = numbered 1 roster ∧
  (∀ m, m ∈ above_me l → name m ≠ me self) ∧
  (my_position l = None ↔ ∀ m, m ∈ roster → name m ≠ me self) ∧
  (my_position l = None → below_me l = [] ∧ im_active l = false) ∧
  (my_position l ≠ None →
   ∃ m rest, below_me l = m :: rest ∧ name m = me self ∧
             position m = Some (S (length (above_me l)))) ∧
  entire_sub_inactive l = forallb (λ m, negb (is_active m)) roster.
Proof.
  intros l. subst l.
  destruct (for_moderators_split roster i 1 self fresh_locals (fresh_locals_split _) eq_refl)
    as ([Habove Hbelow] & Heq & Hent & Hnone & Him).
  split_and!; try done.
  - rewrite Hnone. split; [by intros [_ ?]|done].
  - intros Hmy. rewrite Hmy in Hbelow. split; [done|]. by rewrite (Him Hmy).
  - intros Hmy. by destruct (my_position _).
Qed.

Lemma for_moderators_absent rest : ∀ i pos self l,
  (∀ m, m ∈ rest → name m ≠ me self) →
  (for_moderators i pos rest self l).1 = self.
Proof.
  induction rest as [|moderator rest IH]; intros i pos self l Hall;
    cbn [for_moderators name is_active]; [done|].
  assert (Hne : String.eqb (name moderator) (me self) = false)
    by (apply String.eqb_neq, Hall; by left).
  rewrite Hne. cbv beta iota zeta.
  apply IH. intros m Hm. apply Hall. by right.
Qed.

(** X22.  When the roster of a subreddit is fetched and does not hold
    the self subject (also when it is empty), [scan] still files the
    subreddit: under all-subreddits and under inactive, and under
    no-active-mods when every entry is inactive, and under no other
    bucket; the subreddit object gets no position. *)
Theorem absent_self_is_filed_as_inactive moderators i subreddit self buckets :
  raises (moderators (display_name subreddit)) = None →
  (∀ m, m ∈ yielded (moderators (display_name subreddit)) → name m ≠ me self) →
  let after := scan_subreddit moderators i subreddit (self, buckets) in
  after.1 = self ∧
  ∀ a,
    SubredditBucket.bucket (after.2 a) =
      SubredditBucket.bucket (buckets a) ++
      (if bool_decide (a = all_subreddits ∨ a = inactive)
          || (bool_decide (a = no_active_mods)
              && forallb (λ m, negb (is_active m))
                   (yielded (moderators (display_name subreddit))))
       then [(i, [])] else []).
Proof.
  intros Hok Habsent after. subst after. unfold scan_subreddit.
  set (roster := yielded (moderators (display_name subreddit))) in *.
  pose proof (for_moderators_absent roster i 1 self fresh_locals Habsent) as Hself.
  destruct (for_moderators_split roster i 1 self fresh_locals (fresh_locals_split _) eq_refl)
    as ([_ Hbelow] & _ & Hent & Hnone & Him).
  destruct (for_moderators i 1 roster self fresh_locals) as [self1 l].
  simpl in *. subst self1. rewrite Hok. split; [done|].
  assert (Hmy : my_position l = None) by (by apply Hnone).
  rewrite Hmy in Hbelow. specialize (Him Hmy).
  intros a. unfold classify, ladder. rewrite Hmy, Him, Hbelow, Hent. cbn.
  unfold fire. destruct (forallb _ roster), a; cbn; by rewrite ?app_nil_r.
Qed.

End InactivityMore.

Lemma absent_self_is_filed_as_inactive_witness :
  let moderators := λ _ : string,
    mkListing [mkRedditor "alice" true None; mkRedditor "bob" false None] None in
  let subreddit := InactivityManager.mkSubreddit "pics" None None in
  let self := InactivityManager.init [subreddit] "me" in
  let after :=
    InactivityManager.scan_subreddit moderators 0 subreddit
      (self, InactivityManager.class_body) in
  raises (moderators "pics") = None ∧
  (∀ m, m ∈ yielded (moderators "pics") → name m ≠ "me") ∧
  after.1 = self ∧
  SubredditBucket.bucket (after.2 InactivityManager.inactive) = [(0, [])] ∧
  SubredditBucket.bucket (after.2 InactivityManager.no_active_mods) = [].
Proof.
  intros moderators subreddit self after.
  assert (Habsent : ∀ m, m ∈ yielded (moderators "pics") → name m ≠ "me").
  { intros m [->|[->|?%elem_of_nil]%elem_of_cons]%elem_of_cons; done. }
  split; [reflexivity|]. split; [exact Habsent|].
  destruct (absent_self_is_filed_as_inactive moderators 0 subreddit self
              InactivityManager.class_body eq_refl Habsent) as [Hself Hb].
  split; [exact Hself|]. subst after.
  split; [apply (Hb InactivityManager.inactive)
         |apply (Hb InactivityManager.no_active_mods)].
Defined.

(* ===================================================================== *)
(** ** Properties of the configuration and of the utilities               *)
(* ===================================================================== *)

Section UtilsMore.
Import Config Utils.

(** X23.  The two conversions of [min_age]: hours given by the user,
    stored as seconds and shown again, come back unchanged; seconds read
    from the configuration, shown as hours and stored again, come back
    rounded down to a whole hour, unchanged exactly when they were a
    multiple of 3600.  The other fields are not converted. *)
Theorem min_age_conversions (hours stored : Z) :
  let to_seconds := get_field_attr (from_user (model_fields min_age)) (λ val, val) in
  let to_hours := get_field_attr (from_config (model_fields min_age)) (λ val, val) in
  to_hours (to_seconds hours) = hours ∧
  to_seconds (to_hours stored) = (stored - stored mod 3600)%Z ∧
  (to_seconds (to_hours stored) ≤ stored < to_seconds (to_hours stored) + 3600)%Z ∧
  (to_seconds (to_hours stored) = stored ↔ (stored mod 3600 = 0)%Z) ∧
  (∀ f, f ≠ min_age →
     get_field_attr (from_user (model_fields f)) (λ val, val) stored = stored ∧
     get_field_attr (from_config (model_fields f)) (λ val, val) stored = stored).
Proof.
  simpl.
  pose proof (Z.div_mod stored 3600). pose proof (Z.mod_pos_bound stored 3600).
  split_and!; try lia.
  - by rewrite Z.div_mul.
  - by intros [].
Qed.

(** X24.  [prompt_then_fallback_to_config] returns a value given on the
    command line, converted, without prompting, unless that value is
    zero: a zero is treated like a missing value, and the user is
    prompted with the configured value as default.  For [min_age] a
    user who accepts the default gets the configured seconds rounded
    down to a whole hour. *)
Theorem prompt_only_without_a_value (config : Config.t) prompt param value :
  let from_user := get_field_attr (from_user (model_fields param)) (λ val, val) in
  let from_config := get_field_attr (from_config (model_fields param)) (λ val, val) in
  let shown := from_config (Config.getattr config param) in
  let run := prompt_then_fallback_to_config config prompt param value in
  (∀ v, value = Some v → v ≠ 0%Z → run = (from_user v, None)) ∧
  (value = None ∨ value = Some 0%Z →
   run = (from_user (prompt (to_prompt param) shown), Some (to_prompt param, shown))) ∧
  (value = None ∨ value = Some 0%Z →
   prompt (to_prompt param) shown = shown →
   run.1 = if param is min_age
           then (min_age_value config - min_age_value config mod 3600)%Z
           else Config.getattr config param).
Proof.
  intros from_user' from_config' shown run. subst run.
  unfold prompt_then_fallback_to_config.
  assert (Hfalsy : value = None ∨ value = Some 0%Z →
            match value with Some v => negb (v =? 0)%Z | None => false end = false)
    by (by intros [-> | ->]).
  split_and!.
  - intros v -> Hv. simpl. by rewrite (proj2 (Z.eqb_neq v 0) Hv).
  - intros Hvalue. by rewrite (Hfalsy Hvalue).
  - intros Hvalue Haccept. rewrite (Hfalsy Hvalue). cbn [fst].
    subst shown from_user' from_config'. rewrite Haccept.
    destruct param; simpl; [|done|done].
    pose proof (Z.div_mod (min_age_value config) 3600). lia.
Qed.





Lemma append_unit_text delta output attr brief_attr :
  attr ≠ "day" →
  (0 ≤ Utils.getattr delta attr)%Z →
  append_unit delta output (attr, brief_attr) =
    output ++ unit_text (Utils.getattr delta attr) brief_attr.
Proof.
  intros Hattr Hpos. unfold append_unit, unit_text.
  rewrite (proj2 (String.eqb_neq attr "day") Hattr).
  destruct (Z.eqb_spec (Utils.getattr delta attr) 0) as [->|Hne]; [by rewrite app_nil_r|].
  rewrite (proj2 (Z.leb_gt _ _)) by lia.
  by rewrite (proj2 (Z.ltb_lt _ _)) by lia.
Qed.

Lemma append_unit_day delta output :
  (0 ≤ days delta)%Z →
  append_unit delta output ("day", "d") =
    output ++ unit_text (days delta / 7) "w" ++ unit_text (days delta mod 7) "d".
Proof.
  intros Hpos. unfold append_unit, unit_text, weeks.
  change (Utils.getattr delta "day") with (days delta).
  change (String.eqb "day" "day") with true. cbv iota.
  rewrite Z.quot_div_nonneg by lia.
  pose proof (Z.div_mod (days delta) 7). pose proof (Z.mod_pos_bound (days delta) 7).
  pose proof (Z.div_pos (days delta) 7).
  replace (days delta - days delta / 7 * 7)%Z with (days delta mod 7)%Z by lia.
  destruct (Z.eqb_spec (days delta) 0) as [Hz|Hne].
  { assert (days delta / 7 = 0)%Z as -> by lia.
    assert (days delta mod 7 = 0)%Z as -> by lia.
    simpl. by rewrite app_nil_r. }
  destruct (Z.eqb_spec (days delta / 7) 0) as [Hw|Hw].
  { rewrite Hw. change (0 <? 0)%Z with false. cbv iota.
    assert (days delta mod 7 = days delta)%Z as -> by lia.
    destruct (Z.leb_spec (days delta) 0), (Z.ltb_spec 0 (days delta)); (done || lia). }
  destruct (Z.ltb_spec 0 (days delta / 7)); [|lia].
  destruct (Z.leb_spec (days delta mod 7) 0), (Z.ltb_spec 0 (days delta mod 7));
    try lia; [by rewrite app_nil_r|by rewrite <-app_assoc].
Qed.

(** X26.  For a delta whose fields are not negative, [human_timedelta]
    prints, in this order and each only when positive: the years, the
    months, the whole weeks of the days, the days left over, the hours,
    the minutes and the seconds: seven days print as "1w", with no "0d"
    after it.  It prints "now" when nothing is positive, and appends
    " ago" only for an instant that is not in the future. *)
Theorem human_timedelta_units delta in_future suffix :
  (0 ≤ years delta ∧ 0 ≤ months delta ∧ 0 ≤ days delta ∧ 0 ≤ hours delta ∧
   0 ≤ minutes delta ∧ 0 ≤ seconds delta)%Z →
  let output :=
    unit_text (years delta) "y" ++ unit_text (months delta) "mo" ++
    unit_text (days delta / 7) "w" ++ unit_text (days delta mod 7) "d" ++
    unit_text (hours delta) "h" ++ unit_text (minutes delta) "m" ++
    unit_text (seconds delta) "s" in
  units delta None = output ∧
  human_timedelta delta in_future None suffix =
    (if Nat.eqb (length output) 0 then "now"
     else String.concat " " output +:+ (if negb in_future && suffix then " ago" else "")).
Proof.
  intros (Hy & Hmo & Hd & Hh & Hm & Hs) output.
  assert (Hunits : units delta None = output).
  { unfold units, attrs. cbn [foldl].
    rewrite (append_unit_text delta [] "year" "y") by done.
    rewrite (append_unit_text delta _ "month" "mo") by done.
    rewrite (append_unit_day delta) by done.
    rewrite (append_unit_text delta _ "hour" "h") by done.
    rewrite (append_unit_text delta _ "minute" "m") by done.
    rewrite (append_unit_text delta _ "second" "s") by done.
    unfold output. cbn [Utils.getattr String.eqb]. simpl. by rewrite <-!app_assoc. }
  split; [done|]. unfold human_timedelta. by rewrite Hunits.
Qed.

Lemma human_timedelta_units_witness :
  let delta := mkDelta 0 2 7 0 5 0 in
  (0 ≤ years delta ∧ 0 ≤ months delta ∧ 0 ≤ days delta ∧ 0 ≤ hours delta ∧
   0 ≤ minutes delta ∧ 0 ≤ seconds delta)%Z ∧
  units delta None = ["2mo"; "1w"; "5m"] ∧
  human_timedelta delta false None true = "2mo 1w 5m ago" ∧
  human_timedelta delta true None true = "2mo 1w 5m".
Proof.
  intros delta.
  assert (Hpos : (0 ≤ years delta ∧ 0 ≤ months delta ∧ 0 ≤ days delta ∧ 0 ≤ hours delta ∧
                  0 ≤ minutes delta ∧ 0 ≤ seconds delta)%Z) by (simpl; lia).
  split; [exact Hpos|].
  destruct (human_timedelta_units delta false true Hpos) as [Hunits Hpast].
  destruct (human_timedelta_units delta true true Hpos) as [_ Hfuture].
  split; [rewrite Hunits|split; [rewrite Hpast|rewrite Hfuture]]; vm_compute; reflexivity.
Defined.

End UtilsMore.
